(** * A circuit breaker with pluggable thresholds

    Shallow embedding of the Go package [circuitbreaker]
    (core.go, sliding_window.go, threshold.go) and the properties its
    specification states about it.

    - [int64] and [int] values are integers of [Z] with the two's-complement
      wrap-around of the machine written out ([Int64.wrap]).
    - [time.Time] is an instant of the monotonic clock in nanoseconds,
      [time.Duration] a signed 64-bit count of nanoseconds.
    - Every [time.Now()] of the source is one reading of a clock oracle;
      the readings of a run are the successive values of a function
      [nat -> Time].
    - [*SlidingWindowThreshold] is a location of a heap: the object is
      shared between the breaker that consults it and the caller that records
      failures on it.
    - A method with a pointer receiver on the breaker takes the breaker and
      returns the updated one; what it does to the clock and the heap goes
      through the monad [M].  Dereferencing a location the heap does not
      hold is a panic ([None]).
    - Every public method holds the object's mutex from its first to its last
      statement, so a method is one atomic step; the mutexes themselves are
      not modelled. *)

From Stdlib Require Import ZArith Floats Lia.
From stdpp Require Import gmap strings list.
From stdpp Require Import sorting.

Open Scope Z_scope.

(** ** Machine integers *)

Module Int64.

Definition min_int : Z := - 2 ^ 63.
Definition max_int : Z := 2 ^ 63 - 1.

Definition in_range (z : Z) : Prop := min_int ≤ z ≤ max_int.

(** The value an [int64] holds after an operation whose mathematical
    result is [z]. *)
Definition wrap (z : Z) : Z := (z + 2 ^ 63) `mod` 2 ^ 64 - 2 ^ 63.

Definition add (x y : Z) : Z := wrap (x + y).
Definition neg (x : Z) : Z := wrap (- x).
(** [x++] *)
Definition incr (x : Z) : Z := add x 1.

(** The value [t.Sub(u)] keeps of a difference that does not fit. *)
Definition saturate (z : Z) : Z :=
  if bool_decide (max_int < z) then max_int
  else if bool_decide (z < min_int) then min_int
  else z.

End Int64.

(** ** Time *)

Abbreviation Time := Z (only parsing).
Abbreviation Duration := Z (only parsing).

Definition Time_Sub (t u : Time) : Duration := Int64.saturate (t - u).
Definition Time_Add (t : Time) (d : Duration) : Time := t + d.
Definition Time_After (t u : Time) : bool := bool_decide (u < t).

(** Addresses of sliding window objects. *)
Abbreviation loc := positive (only parsing).

(** ** Values of type [any] *)

(** A type switch only looks at the dynamic type of the value: the kinds the
    package switches on carry their value, [any_counters] is the anonymous
    struct of [calculateCheckValue], [any_window] a [*SlidingWindowThreshold],
    and every other dynamic type is [any_other] with the name of the type. *)
Inductive any : Type :=
  | any_nil
  | any_int64 (v : Z)
  | any_int (v : Z)
  | any_float64 (v : float)
  | any_float32 (v : float)
  | any_counters (Successes Failures Total : Z)
  | any_window (p : loc)
  | any_other (dynamic_type : string).

(** [float64(v)] of an integer: the nearest binary64, ties to even. *)
Definition float64_of_int (v : Z) : float :=
  SF2Prim (binary_normalize prec emax v 0 false).

(** ** Simple thresholds (threshold.go) *)

Record Int64Threshold := { Int64Threshold_threshold : Z }.

Definition NewInt64Threshold (threshold : Z) : Int64Threshold :=
  {| Int64Threshold_threshold := threshold |}.

Definition Int64Threshold_Check (t : Int64Threshold) (value : any) : bool :=
  match value with
  | any_int64 v => bool_decide (Int64Threshold_threshold t ≤ v)
  | any_int v => bool_decide (Int64Threshold_threshold t ≤ v)
  | _ => false
  end.

Definition Int64Threshold_GetThreshold (t : Int64Threshold) : any :=
  any_int64 (Int64Threshold_threshold t).

Record Float64Threshold := { Float64Threshold_threshold : float }.

Definition NewFloat64Threshold (threshold : float) : Float64Threshold :=
  {| Float64Threshold_threshold := threshold |}.

Definition Float64Threshold_Check (t : Float64Threshold) (value : any) : bool :=
  match value with
  | any_float64 v => PrimFloat.leb (Float64Threshold_threshold t) v
  | any_float32 v => PrimFloat.leb (Float64Threshold_threshold t) v
  | any_int v => PrimFloat.leb (Float64Threshold_threshold t) (float64_of_int v)
  | any_int64 v => PrimFloat.leb (Float64Threshold_threshold t) (float64_of_int v)
  | _ => false
  end.

Definition Float64Threshold_GetThreshold (t : Float64Threshold) : any :=
  any_float64 (Float64Threshold_threshold t).

(** ** The sliding window object (sliding_window.go) *)

Record SlidingWindowThreshold := {
  windowSize : Duration;
  maxFailures : Z;
  name : string;
  failureTimes : list Time
}.

Definition set_failureTimes (fts : list Time) (sw : SlidingWindowThreshold) :
    SlidingWindowThreshold :=
  {| windowSize := windowSize sw; maxFailures := maxFailures sw;
     name := name sw; failureTimes := fts |}.

(** ** The world a method runs in *)

Record Env := {
  clock : nat → Time;
  reads : nat;
  heap : gmap loc SlidingWindowThreshold
}.

Definition M (A : Type) : Type := Env → option (A * Env).

#[global] Instance M_ret : MRet M := λ A a e, Some (a, e).
#[global] Instance M_bind : MBind M := λ A B f m e,
  match m e with
  | Some (a, e') => f a e'
  | None => None
  end.

Definition panic {A} : M A := λ _, None.

(** [time.Now()] *)
Definition time_Now : M Time := λ e,
  Some (clock e (reads e),
        {| clock := clock e; reads := S (reads e); heap := heap e |}).

(** [*p] *)
Definition deref (p : loc) : M SlidingWindowThreshold := λ e,
  match heap e !! p with
  | Some sw => Some (sw, e)
  | None => panic e
  end.

(** [*p = sw] *)
Definition store (p : loc) (sw : SlidingWindowThreshold) : M unit := λ e,
  match heap e !! p with
  | Some _ =>
      Some (tt, {| clock := clock e; reads := reads e;
                   heap := <[p:=sw]> (heap e) |})
  | None => panic e
  end.

(** [&T{...}] *)
Definition alloc (sw : SlidingWindowThreshold) : M loc := λ e,
  let p := fresh (dom (heap e)) in
  Some (p, {| clock := clock e; reads := reads e;
              heap := <[p:=sw]> (heap e) |}).

(** ** Methods of the sliding window *)

Definition NewSlidingWindowThreshold
    (windowSize : Duration) (maxFailures : Z) (name : string) : M loc :=
  alloc {| windowSize := windowSize; maxFailures := maxFailures;
           name := name; failureTimes := [] |}.

(** The loop of [Check]: [validFailures] grows by the entries of the range
    that are after [windowStart]. *)
Fixpoint Check_loop (windowStart : Time) (range : list Time)
    (validFailures : list Time) : list Time :=
  match range with
  | [] => validFailures
  | ft :: range' =>
      if Time_After ft windowStart
      then Check_loop windowStart range' (validFailures ++ [ft])
      else Check_loop windowStart range' validFailures
  end.

Definition SlidingWindowThreshold_Check (p : loc) (value : any) : M bool :=
  sw ← deref p;
  now ← time_Now;
  let windowStart := Time_Add now (Int64.neg (windowSize sw)) in
  let validFailures := Check_loop windowStart (failureTimes sw) [] in
  let sw := set_failureTimes validFailures sw in
  _ ← store p sw;
  mret (bool_decide (maxFailures sw ≤ Z.of_nat (length (failureTimes sw)))).

Definition SlidingWindowThreshold_GetThreshold (p : loc) : any :=
  any_window p.

Definition SlidingWindowThreshold_String (p : loc) : M string :=
  sw ← deref p;
  mret ("SlidingWindowThreshold: " +:+ name sw).

Definition SlidingWindowThreshold_RecordFailure (p : loc) : M unit :=
  sw ← deref p;
  now ← time_Now;
  store p (set_failureTimes (failureTimes sw ++ [now]) sw).

Definition SlidingWindowThreshold_GetCurrentFailures (p : loc) : M Z :=
  sw ← deref p;
  mret (Z.of_nat (length (failureTimes sw))).

(** ** The threshold interface and the switch (threshold.go) *)

(** The implementations of [CustomThreshold] the package ships.  The two
    simple thresholds are never written after their construction, so the
    pointer to one is modelled by the value it points to.  A nil interface
    and a nil pointer to a simple threshold, on which the source panics, are
    not values of this type: every threshold here is one a constructor of
    the package returned. *)
Inductive CustomThreshold : Type :=
  | Int64Threshold_ptr (t : Int64Threshold)
  | Float64Threshold_ptr (t : Float64Threshold)
  | SlidingWindowThreshold_ptr (p : loc).

Definition CustomThreshold_Check (threshold : CustomThreshold) (value : any) :
    M bool :=
  match threshold with
  | Int64Threshold_ptr t => mret (Int64Threshold_Check t value)
  | Float64Threshold_ptr t => mret (Float64Threshold_Check t value)
  | SlidingWindowThreshold_ptr p => SlidingWindowThreshold_Check p value
  end.

Definition CustomThreshold_GetThreshold (threshold : CustomThreshold) : any :=
  match threshold with
  | Int64Threshold_ptr t => Int64Threshold_GetThreshold t
  | Float64Threshold_ptr t => Float64Threshold_GetThreshold t
  | SlidingWindowThreshold_ptr p => SlidingWindowThreshold_GetThreshold p
  end.

Inductive Switch : Type :=
  | CustomSwitch (threshold : CustomThreshold).

Definition Switch_Check (s : Switch) (value : any) : M bool :=
  match s with
  | CustomSwitch threshold => CustomThreshold_Check threshold value
  end.

Definition ChooseSwitch (threshold : CustomThreshold) : Switch :=
  CustomSwitch threshold.

(** ** The breaker (core.go) *)

(** The three state tokens.  The source declares them as package variables
    and never assigns them; [state] holds one of them in every breaker the
    package builds ([breaker_inv] below). *)
Definition StateClosed : string := "closed".
Definition StateOpened : string := "open".
Definition StateHalfOpen : string := "half-open".

Record CircuitBreaker := {
  failures : Z;
  successes : Z;
  state : string;
  lastStateChange : Time;
  failureThreshold : CustomThreshold;
  successThreshold : CustomThreshold;
  failureSwitch : Switch;
  successSwitch : Switch;
  openedTimeout : Duration
}.

Definition set_failures (v : Z) (cb : CircuitBreaker) : CircuitBreaker :=
  {| failures := v; successes := successes cb; state := state cb;
     lastStateChange := lastStateChange cb;
     failureThreshold := failureThreshold cb;
     successThreshold := successThreshold cb;
     failureSwitch := failureSwitch cb; successSwitch := successSwitch cb;
     openedTimeout := openedTimeout cb |}.

Definition set_successes (v : Z) (cb : CircuitBreaker) : CircuitBreaker :=
  {| failures := failures cb; successes := v; state := state cb;
     lastStateChange := lastStateChange cb;
     failureThreshold := failureThreshold cb;
     successThreshold := successThreshold cb;
     failureSwitch := failureSwitch cb; successSwitch := successSwitch cb;
     openedTimeout := openedTimeout cb |}.

Definition set_state (v : string) (cb : CircuitBreaker) : CircuitBreaker :=
  {| failures := failures cb; successes := successes cb; state := v;
     lastStateChange := lastStateChange cb;
     failureThreshold := failureThreshold cb;
     successThreshold := successThreshold cb;
     failureSwitch := failureSwitch cb; successSwitch := successSwitch cb;
     openedTimeout := openedTimeout cb |}.

Definition set_lastStateChange (v : Time) (cb : CircuitBreaker) :
    CircuitBreaker :=
  {| failures := failures cb; successes := successes cb; state := state cb;
     lastStateChange := v;
     failureThreshold := failureThreshold cb;
     successThreshold := successThreshold cb;
     failureSwitch := failureSwitch cb; successSwitch := successSwitch cb;
     openedTimeout := openedTimeout cb |}.

Definition set_failureThreshold (v : CustomThreshold) (cb : CircuitBreaker) :
    CircuitBreaker :=
  {| failures := failures cb; successes := successes cb; state := state cb;
     lastStateChange := lastStateChange cb;
     failureThreshold := v;
     successThreshold := successThreshold cb;
     failureSwitch := failureSwitch cb; successSwitch := successSwitch cb;
     openedTimeout := openedTimeout cb |}.

Definition set_successThreshold (v : CustomThreshold) (cb : CircuitBreaker) :
    CircuitBreaker :=
  {| failures := failures cb; successes := successes cb; state := state cb;
     lastStateChange := lastStateChange cb;
     failureThreshold := failureThreshold cb;
     successThreshold := v;
     failureSwitch := failureSwitch cb; successSwitch := successSwitch cb;
     openedTimeout := openedTimeout cb |}.

Definition set_failureSwitch (v : Switch) (cb : CircuitBreaker) :
    CircuitBreaker :=
  {| failures := failures cb; successes := successes cb; state := state cb;
     lastStateChange := lastStateChange cb;
     failureThreshold := failureThreshold cb;
     successThreshold := successThreshold cb;
     failureSwitch := v; successSwitch := successSwitch cb;
     openedTimeout := openedTimeout cb |}.

Definition set_successSwitch (v : Switch) (cb : CircuitBreaker) :
    CircuitBreaker :=
  {| failures := failures cb; successes := successes cb; state := state cb;
     lastStateChange := lastStateChange cb;
     failureThreshold := failureThreshold cb;
     successThreshold := successThreshold cb;
     failureSwitch := failureSwitch cb; successSwitch := v;
     openedTimeout := openedTimeout cb |}.

Definition set_openedTimeout (v : Duration) (cb : CircuitBreaker) :
    CircuitBreaker :=
  {| failures := failures cb; successes := successes cb; state := state cb;
     lastStateChange := lastStateChange cb;
     failureThreshold := failureThreshold cb;
     successThreshold := successThreshold cb;
     failureSwitch := failureSwitch cb; successSwitch := successSwitch cb;
     openedTimeout := v |}.

Definition NewCircuitBreaker (failureThreshold successThreshold : CustomThreshold)
    (openedTimeout : Duration) : M CircuitBreaker :=
  now ← time_Now;
  mret {| failures := 0; successes := 0;
          state := StateClosed;
          lastStateChange := now;
          failureThreshold := failureThreshold;
          successThreshold := successThreshold;
          failureSwitch := ChooseSwitch failureThreshold;
          successSwitch := ChooseSwitch successThreshold;
          openedTimeout := openedTimeout |}.

Definition UpdateValues (newFailure newSuccess : CustomThreshold)
    (newTimeout : Duration) (cb : CircuitBreaker) : M CircuitBreaker :=
  let cb := set_failureThreshold newFailure cb in
  let cb := set_successThreshold newSuccess cb in
  let cb := set_failureSwitch (ChooseSwitch newFailure) cb in
  let cb := set_successSwitch (ChooseSwitch newSuccess) cb in
  let cb := set_openedTimeout newTimeout cb in
  mret cb.

Definition resetCounters (cb : CircuitBreaker) : CircuitBreaker :=
  set_successes 0 (set_failures 0 cb).

(** [time.Since(t)] *)
Definition time_Since (t : Time) : M Duration :=
  now ← time_Now;
  mret (Time_Sub now t).

Definition Allow (cb : CircuitBreaker) : M (bool * CircuitBreaker) :=
  cb ← (if bool_decide (state cb = StateOpened) then
          since ← time_Since (lastStateChange cb);
          if bool_decide (openedTimeout cb < since) then
            let cb := set_state StateHalfOpen cb in
            now ← time_Now;
            let cb := set_lastStateChange now cb in
            mret (resetCounters cb)
          else mret cb
        else mret cb);
  mret (negb (bool_decide (state cb = StateOpened)), cb).

Definition calculateCheckValue (cb : CircuitBreaker) (counter : Z)
    (threshold : CustomThreshold) : any :=
  match threshold with
  | Int64Threshold_ptr _ => any_int64 counter
  | Float64Threshold_ptr _ =>
      let total := Int64.add (successes cb) (failures cb) in
      if bool_decide (total = 0) then any_float64 0%float
      else any_float64
             (PrimFloat.div (float64_of_int counter) (float64_of_int total))
  | _ =>
      any_counters (successes cb) (failures cb)
        (Int64.add (successes cb) (failures cb))
  end.

Definition RecordSuccess (cb : CircuitBreaker) : M CircuitBreaker :=
  if bool_decide (state cb = StateClosed) then
    let cb := set_successes (Int64.incr (successes cb)) cb in
    let cb := set_failures 0 cb in
    mret cb
  else if bool_decide (state cb = StateHalfOpen) then
    let cb := set_successes (Int64.incr (successes cb)) cb in
    let cb := set_failures 0 cb in
    let checkValue := calculateCheckValue cb (successes cb) (successThreshold cb) in
    b ← Switch_Check (successSwitch cb) checkValue;
    if (b : bool) then
      let cb := set_state StateClosed cb in
      now ← time_Now;
      let cb := set_lastStateChange now cb in
      mret (resetCounters cb)
    else mret cb
  else if bool_decide (state cb = StateOpened) then
    mret cb
  else mret cb.

Definition RecordFailure (cb : CircuitBreaker) : M CircuitBreaker :=
  if bool_decide (state cb = StateClosed) then
    let cb := set_failures (Int64.incr (failures cb)) cb in
    let cb := set_successes 0 cb in
    let checkValue := calculateCheckValue cb (failures cb) (failureThreshold cb) in
    b ← Switch_Check (failureSwitch cb) checkValue;
    if (b : bool) then
      let cb := set_state StateOpened cb in
      now ← time_Now;
      let cb := set_lastStateChange now cb in
      mret (resetCounters cb)
    else mret cb
  else if bool_decide (state cb = StateHalfOpen) then
    let cb := set_state StateOpened cb in
    now ← time_Now;
    let cb := set_lastStateChange now cb in
    mret (resetCounters cb)
  else if bool_decide (state cb = StateOpened) then
    mret cb
  else mret cb.

Definition State (cb : CircuitBreaker) : M (string * CircuitBreaker) :=
  cb ← (if bool_decide (state cb = StateOpened) then
          since ← time_Since (lastStateChange cb);
          if bool_decide (openedTimeout cb < since) then
            let cb := set_state StateHalfOpen cb in
            now ← time_Now;
            let cb := set_lastStateChange now cb in
            mret (resetCounters cb)
          else mret cb
        else mret cb);
  mret (state cb, cb).

(** ** Runs of a sliding window *)

(** A caller's use of one sliding window is a sequence of calls; the log of a
    run keeps, for each call, the clock reading the call made and what it
    returned. *)
Inductive WindowCall : Type :=
  | Window_RecordFailure
  | Window_Check (value : any).

Inductive WindowEvent : Type :=
  | Recorded (t : Time)
  | Checked (t : Time) (result : bool).

(** The reading the next [time.Now()] returns; the clock does not advance. *)
Definition next_reading : M Time := λ e, Some (clock e (reads e), e).

Definition run_window_call (p : loc) (c : WindowCall) : M WindowEvent :=
  t ← next_reading;
  match c with
  | Window_RecordFailure =>
      _ ← SlidingWindowThreshold_RecordFailure p;
      mret (Recorded t)
  | Window_Check value =>
      b ← SlidingWindowThreshold_Check p value;
      mret (Checked t b)
  end.

Fixpoint run_window (p : loc) (calls : list WindowCall) : M (list WindowEvent) :=
  match calls with
  | [] => mret []
  | c :: calls' =>
      ev ← run_window_call p c;
      evs ← run_window p calls';
      mret (ev :: evs)
  end.

(** The timestamps of the [RecordFailure] calls of a log. *)
Fixpoint recorded (log : list WindowEvent) : list Time :=
  match log with
  | [] => []
  | Recorded t :: log' => t :: recorded log'
  | Checked _ _ :: log' => recorded log'
  end.

(** The answer the specification gives for a [Check] made at [now] after the
    calls of [before]: the number of [RecordFailure] calls whose timestamp
    lies in the trailing [windowSize] before [now] is at least
    [maxFailures]. *)
Definition failures_within (windowSize : Duration) (now : Time)
    (before : list WindowEvent) : nat :=
  length (filter (λ t, now - windowSize < t ≤ now) (recorded before)).

Definition Check_spec (windowSize : Duration) (maxFailures : Z) (now : Time)
    (before : list WindowEvent) : bool :=
  bool_decide (maxFailures ≤ Z.of_nat (failures_within windowSize now before)).

(** Readings of the monotonic clock never decrease. *)
Definition monotonic (e : Env) : Prop :=
  ∀ i j : nat, (i ≤ j)%nat → clock e i ≤ clock e j.

(** What a run of calls on the window at [p] maintains: the object and the
    calls made so far agree on every window that starts no earlier than the
    one of the next reading. *)
Definition window_inv (p : loc) (w : Duration) (m : Z) (e : Env)
    (before : list WindowEvent) : Prop :=
  ∃ sw, heap e !! p = Some sw ∧ windowSize sw = w ∧ maxFailures sw = m ∧
    Forall (λ t, t ≤ clock e (reads e)) (recorded before) ∧
    ∀ ws, clock e (reads e) - w ≤ ws →
      filter (λ t, ws < t) (failureTimes sw)
      = filter (λ t, ws < t) (recorded before).

(** The event the specification expects of a call made at [now]. *)
Definition answers (w : Duration) (m : Z) (c : WindowCall) (now : Time)
    (before : list WindowEvent) : WindowEvent :=
  match c with
  | Window_RecordFailure => Recorded now
  | Window_Check _ => Checked now (Check_spec w m now before)
  end.

(** The log the specification expects of the calls [calls], made one after
    the other at the readings [clock i], [clock (S i)], ... after the calls of
    [before]. *)
Fixpoint spec_log (w : Duration) (m : Z) (clock : nat → Time) (i : nat)
    (before : list WindowEvent) (calls : list WindowCall) : list WindowEvent :=
  match calls with
  | [] => []
  | c :: calls' =>
      let ev := answers w m c (clock i) before in
      ev :: spec_log w m clock (S i) (before ++ [ev]) calls'
  end.

(** ** Runs of a breaker *)

(** What the callers of one breaker can do between its construction and any
    later moment: call its methods, and use the sliding windows of the heap,
    which the breaker may hold as thresholds. *)
Inductive Call : Type :=
  | Call_Allow
  | Call_State
  | Call_RecordSuccess
  | Call_RecordFailure
  | Call_UpdateValues (newFailure newSuccess : CustomThreshold)
      (newTimeout : Duration)
  | Call_NewWindow (windowSize : Duration) (maxFailures : Z) (name : string)
  | Call_Window (p : loc) (c : WindowCall).

Definition run_call (c : Call) (cb : CircuitBreaker) : M CircuitBreaker :=
  match c with
  | Call_Allow => r ← Allow cb; mret r.2
  | Call_State => r ← State cb; mret r.2
  | Call_RecordSuccess => RecordSuccess cb
  | Call_RecordFailure => RecordFailure cb
  | Call_UpdateValues newFailure newSuccess newTimeout =>
      UpdateValues newFailure newSuccess newTimeout cb
  | Call_NewWindow windowSize maxFailures name =>
      _ ← NewSlidingWindowThreshold windowSize maxFailures name; mret cb
  | Call_Window p c => _ ← run_window_call p c; mret cb
  end.

Fixpoint run_calls (calls : list Call) (cb : CircuitBreaker) :
    M CircuitBreaker :=
  match calls with
  | [] => mret cb
  | c :: calls' => cb ← run_call c cb; run_calls calls' cb
  end.

(** [n] calls of one method in a row. *)
Fixpoint repeat_call (n : nat) (method : CircuitBreaker → M CircuitBreaker)
    (cb : CircuitBreaker) : M CircuitBreaker :=
  match n with
  | O => mret cb
  | S n' => cb ← method cb; repeat_call n' method cb
  end.

(** [n] calls of [Allow] in a row, with what each returned. *)
Fixpoint repeat_Allow (n : nat) (cb : CircuitBreaker) :
    M (list bool * CircuitBreaker) :=
  match n with
  | O => mret ([], cb)
  | S n' =>
      r ← Allow cb;
      rs ← repeat_Allow n' r.2;
      mret (r.1 :: rs.1, rs.2)
  end.

(** The kinds the type switch of each simple threshold has a case for. *)
Definition Int64Threshold_recognizes (value : any) : bool :=
  match value with
  | any_int64 _ | any_int _ => true
  | _ => false
  end.

Definition Float64Threshold_recognizes (value : any) : bool :=
  match value with
  | any_float64 _ | any_float32 _ | any_int _ | any_int64 _ => true
  | _ => false
  end.

(** The breaker after a transition into [st] stamped [now]. *)
Definition moved_to (st : string) (now : Time) (cb : CircuitBreaker) :
    CircuitBreaker :=
  {| failures := 0; successes := 0; state := st; lastStateChange := now;
     failureThreshold := failureThreshold cb;
     successThreshold := successThreshold cb;
     failureSwitch := failureSwitch cb; successSwitch := successSwitch cb;
     openedTimeout := openedTimeout cb |}.

(** The environment after [n] more readings of the clock. *)
Definition after_reads (n : nat) (e : Env) : Env :=
  {| clock := clock e; reads := (n + reads e)%nat; heap := heap e |}.

(** Two breakers with the same thresholds, switches and timeout. *)
Definition same_config (cb cb' : CircuitBreaker) : Prop :=
  failureThreshold cb' = failureThreshold cb ∧
  successThreshold cb' = successThreshold cb ∧
  failureSwitch cb' = failureSwitch cb ∧
  successSwitch cb' = successSwitch cb ∧
  openedTimeout cb' = openedTimeout cb.

(** A breaker whose failure side is the integer-count threshold of limit
    [N], as [NewCircuitBreaker] and [UpdateValues] install it. *)
Definition counts_failures (N : Z) (cb : CircuitBreaker) : Prop :=
  failureThreshold cb = Int64Threshold_ptr (NewInt64Threshold N) ∧
  failureSwitch cb = ChooseSwitch (failureThreshold cb).

Definition counts_successes (N : Z) (cb : CircuitBreaker) : Prop :=
  successThreshold cb = Int64Threshold_ptr (NewInt64Threshold N) ∧
  successSwitch cb = ChooseSwitch (successThreshold cb).

(** ** Concrete values for the examples *)

Definition ms : Z := 1000000.

(** A clock read every 50ms. *)
Definition demo_env : Env :=
  {| clock := λ n, Z.of_nat n * (50 * ms); reads := 0; heap := ∅ |}.

(** [NewCircuitBreaker(NewInt64Threshold(2), NewInt64Threshold(1), 100ms)]
    at time 0. *)
Definition demo_breaker : CircuitBreaker :=
  {| failures := 0; successes := 0; state := StateClosed;
     lastStateChange := 0;
     failureThreshold := Int64Threshold_ptr (NewInt64Threshold 2);
     successThreshold := Int64Threshold_ptr (NewInt64Threshold 1);
     failureSwitch := ChooseSwitch (Int64Threshold_ptr (NewInt64Threshold 2));
     successSwitch := ChooseSwitch (Int64Threshold_ptr (NewInt64Threshold 1));
     openedTimeout := 100 * ms |}.

(** What every method of the breaker maintains. *)
Definition breaker_inv (cb : CircuitBreaker) : Prop :=
  (failures cb = 0 ∨ successes cb = 0) ∧
  (state cb = StateOpened → failures cb = 0 ∧ successes cb = 0) ∧
  (state cb = StateClosed ∨ state cb = StateHalfOpen ∨
   state cb = StateOpened) ∧
  failureSwitch cb = ChooseSwitch (failureThreshold cb) ∧
  successSwitch cb = ChooseSwitch (successThreshold cb).

(** A breaker fresh from its constructor, after any calls. *)
Definition breaker_run (failureThreshold successThreshold : CustomThreshold)
    (openedTimeout : Duration) (calls : list Call) : M CircuitBreaker :=
  cb ← NewCircuitBreaker failureThreshold successThreshold openedTimeout;
  run_calls calls cb.

(** A window of 200ms and limit 2 at address 1, with failures recorded at 0
    and at 50ms, as two calls of [RecordFailure] leave it. *)
Definition demo_window : SlidingWindowThreshold :=
  {| windowSize := 200 * ms; maxFailures := 2; name := "demo";
     failureTimes := [0; 50 * ms] |}.

Definition demo_window_env : Env :=
  {| clock := clock demo_env; reads := 2; heap := {[ 1%positive := demo_window ]} |}.

(** The entries of the window at [p] are in chronological order, none is
    later than the next reading, and each is the timestamp of a
    [RecordFailure] of [before], in the order of the calls. *)
Definition window_chron (p : loc) (e : Env) (before : list WindowEvent) : Prop :=
  ∃ sw, heap e !! p = Some sw ∧
    StronglySorted Z.le (failureTimes sw) ∧
    Forall (λ t, t ≤ clock e (reads e)) (failureTimes sw) ∧
    failureTimes sw `sublist_of` recorded before.

(** ** Vocabulary for the further properties *)

(** The calls that are methods of the breaker. *)
Definition is_breaker_method (c : Call) : Prop :=
  match c with
  | Call_NewWindow _ _ _ | Call_Window _ _ => False
  | _ => True
  end.

(** The arrows of the state diagram, with the method that follows each. *)
Definition arrow (c : Call) (from to : string) : Prop :=
  (c = Call_RecordFailure ∧ from = StateClosed ∧ to = StateOpened) ∨
  (c = Call_RecordFailure ∧ from = StateHalfOpen ∧ to = StateOpened) ∨
  (c = Call_RecordSuccess ∧ from = StateHalfOpen ∧ to = StateClosed) ∨
  ((c = Call_Allow ∨ c = Call_State) ∧
   from = StateOpened ∧ to = StateHalfOpen).

(** [sw'] is [sw] with some entries dropped. *)
Definition window_pruned (sw sw' : SlidingWindowThreshold) : Prop :=
  windowSize sw' = windowSize sw ∧ maxFailures sw' = maxFailures sw ∧
  name sw' = name sw ∧
  failureTimes sw' `sublist_of` failureTimes sw.

(** The switches are those chosen for the thresholds, as the constructor and
    [UpdateValues] leave them. *)
Definition switches_chosen (cb : CircuitBreaker) : Prop :=
  failureSwitch cb = ChooseSwitch (failureThreshold cb) ∧
  successSwitch cb = ChooseSwitch (successThreshold cb).

(** The number of [RecordFailure] calls, and of [RecordSuccess] calls, on
    the breaker in a sequence of calls. *)
Fixpoint count_RecordFailure (calls : list Call) : nat :=
  match calls with
  | [] => 0
  | Call_RecordFailure :: calls' => S (count_RecordFailure calls')
  | _ :: calls' => count_RecordFailure calls'
  end.

Fixpoint count_RecordSuccess (calls : list Call) : nat :=
  match calls with
  | [] => 0
  | Call_RecordSuccess :: calls' => S (count_RecordSuccess calls')
  | _ :: calls' => count_RecordSuccess calls'
  end.

(** [demo_breaker] with the window at address 1 as failure threshold, and
    with other thresholds and timeouts. *)
Definition with_failureThreshold (threshold : CustomThreshold)
    (cb : CircuitBreaker) : CircuitBreaker :=
  set_failureSwitch (ChooseSwitch threshold)
    (set_failureThreshold threshold cb).

Definition demo_window_breaker : CircuitBreaker :=
  with_failureThreshold (SlidingWindowThreshold_ptr 1) demo_breaker.

(** A heap with one window at address 1. *)
Definition env_with_window (sw : SlidingWindowThreshold) (reads : nat) : Env :=
  {| clock := clock demo_env; reads := reads; heap := {[ 1%positive := sw ]} |}.

(** What a caller does at each failure when the failure threshold of the
    breaker is the window at [p]: it records the failure on the window, then
    on the breaker. *)
Definition record_on_both (p : loc) (cb : CircuitBreaker) : M CircuitBreaker :=
  _ ← SlidingWindowThreshold_RecordFailure p;
  RecordFailure cb.

(** After [j] failures recorded on both, none of which opened the breaker
    that started in [e0]: the window at [p] holds [j] entries, none earlier
    than the first reading, and each failure took two readings. *)
Definition both_inv (p : loc) (e0 : Env) (w : Duration) (m : Z) (j : nat)
    (cb : CircuitBreaker) (e : Env) : Prop :=
  clock e = clock e0 ∧ reads e = (2 * j + reads e0)%nat ∧
  state cb = StateClosed ∧
  failureThreshold cb = SlidingWindowThreshold_ptr p ∧
  failureSwitch cb = ChooseSwitch (failureThreshold cb) ∧
  ∃ sw, heap e !! p = Some sw ∧ windowSize sw = w ∧ maxFailures sw = m ∧
    length (failureTimes sw) = j ∧
    Forall (λ t, clock e0 (reads e0) ≤ t) (failureTimes sw).

(** * Properties *)

(** ** Machine integers *)

Lemma wrap_in_range z : Int64.in_range z → Int64.wrap z = z.
Proof.
  unfold Int64.in_range, Int64.wrap, Int64.min_int, Int64.max_int.
  intros Hz. rewrite Z.mod_small; lia.
Qed.

Lemma wrap_range z : Int64.in_range (Int64.wrap z).
Proof.
  unfold Int64.in_range, Int64.wrap, Int64.min_int, Int64.max_int.
  pose proof (Z.mod_pos_bound (z + 2 ^ 63) (2 ^ 64)). lia.
Qed.

Lemma incr_small x :
  Int64.min_int ≤ x < Int64.max_int → Int64.incr x = x + 1.
Proof.
  intros Hx. apply wrap_in_range. unfold Int64.in_range. lia.
Qed.

Lemma neg_small x :
  Int64.min_int < x ≤ Int64.max_int → Int64.neg x = - x.
Proof.
  intros Hx. apply wrap_in_range.
  unfold Int64.in_range, Int64.min_int, Int64.max_int in *. lia.
Qed.

(** ** The monad *)

Lemma bind_Some {A B} (m : M A) (f : A → M B) e a e' :
  m e = Some (a, e') → (m ≫= f) e = f a e'.
Proof. unfold mbind, M_bind. by intros ->. Qed.

Lemma bind_None {A B} (m : M A) (f : A → M B) e :
  m e = None → (m ≫= f) e = None.
Proof. unfold mbind, M_bind. by intros ->. Qed.

Lemma bind_inv {A B} (m : M A) (f : A → M B) e b e'' :
  (m ≫= f) e = Some (b, e'') →
  ∃ a e', m e = Some (a, e') ∧ f a e' = Some (b, e'').
Proof.
  unfold mbind, M_bind. destruct (m e) as [[a e']|]; [eauto | done].
Qed.

(** ** The sliding window *)

Lemma Check_loop_filter windowStart range validFailures :
  Check_loop windowStart range validFailures
  = validFailures ++ filter (λ ft, windowStart < ft) range.
Proof.
  revert validFailures.
  induction range as [|ft range IH]; intros acc; simpl.
  - by rewrite app_nil_r.
  - unfold Time_After. rewrite filter_cons.
    case_bool_decide; destruct (decide (windowStart < ft)); try lia.
    + rewrite IH, <- app_assoc. done.
    + apply IH.
Qed.

Lemma Check_run e p sw value :
  heap e !! p = Some sw →
  let now := clock e (reads e) in
  let kept := filter (λ ft, now + Int64.neg (windowSize sw) < ft)
                (failureTimes sw) in
  SlidingWindowThreshold_Check p value e
  = Some (bool_decide (maxFailures sw ≤ Z.of_nat (length kept)),
          {| clock := clock e; reads := S (reads e);
             heap := <[p := set_failureTimes kept sw]> (heap e) |}).
Proof.
  intros Hp. unfold SlidingWindowThreshold_Check.
  erewrite bind_Some; [|unfold deref; by rewrite Hp].
  erewrite bind_Some; [|reflexivity].
  erewrite bind_Some; [|unfold store; simpl; by rewrite Hp].
  unfold Time_Add. rewrite Check_loop_filter. done.
Qed.

Lemma RecordFailure_run e p sw :
  heap e !! p = Some sw →
  SlidingWindowThreshold_RecordFailure p e
  = Some (tt,
          {| clock := clock e; reads := S (reads e);
             heap := <[p := set_failureTimes
                               (failureTimes sw ++ [clock e (reads e)]) sw]>
                       (heap e) |}).
Proof.
  intros Hp. unfold SlidingWindowThreshold_RecordFailure.
  erewrite bind_Some; [|unfold deref; by rewrite Hp].
  erewrite bind_Some; [|reflexivity].
  unfold store; simpl. by rewrite Hp.
Qed.

Lemma GetCurrentFailures_run e p sw :
  heap e !! p = Some sw →
  SlidingWindowThreshold_GetCurrentFailures p e
  = Some (Z.of_nat (length (failureTimes sw)), e).
Proof.
  intros Hp. unfold SlidingWindowThreshold_GetCurrentFailures.
  erewrite bind_Some; [|unfold deref; by rewrite Hp]. done.
Qed.

(** C8. A call of [Check] on a sliding window returns, and when it has
    returned the object holds exactly the timestamps it held before that are
    strictly newer than [now - windowSize], [now] being the clock reading
    made inside the call, in their order; the others are gone from the object,
    and a following [GetCurrentFailures] returns the number of those kept. *)
Theorem Check_keeps_only_window e p sw value :
  heap e !! p = Some sw →
  Int64.min_int < windowSize sw ≤ Int64.max_int →
  let now := clock e (reads e) in
  ∃ b e' sw',
    SlidingWindowThreshold_Check p value e = Some (b, e') ∧
    heap e' !! p = Some sw' ∧
    failureTimes sw'
    = filter (λ ft, now - windowSize sw < ft) (failureTimes sw) ∧
    Forall (λ ft, now - windowSize sw < ft) (failureTimes sw') ∧
    (∀ ft, ft ≤ now - windowSize sw → ft ∉ failureTimes sw') ∧
    windowSize sw' = windowSize sw ∧ maxFailures sw' = maxFailures sw ∧
    SlidingWindowThreshold_GetCurrentFailures p e'
    = Some (Z.of_nat (length (filter (λ ft, now - windowSize sw < ft)
                                (failureTimes sw))), e').
Proof.
  intros Hp Hw now.
  pose proof (Check_run e p sw value Hp) as Hrun. simpl in Hrun.
  rewrite (neg_small _ Hw) in Hrun.
  replace (clock e (reads e) + - windowSize sw) with (now - windowSize sw)
    in Hrun by (unfold now; lia).
  eexists _, _, _. split; [exact Hrun|].
  split; [simpl; apply lookup_insert_eq|].
  split; [done|]. split.
  { simpl. apply Forall_forall. intros ft Hft.
    apply list_elem_of_filter in Hft. tauto. }
  split.
  { intros ft Hle Hft. simpl in Hft.
    apply list_elem_of_filter in Hft. lia. }
  split; [done|]. split; [done|].
  erewrite GetCurrentFailures_run; [|simpl; apply lookup_insert_eq]. done.
Qed.

Lemma recorded_app log1 log2 :
  recorded (log1 ++ log2) = recorded log1 ++ recorded log2.
Proof.
  induction log1 as [|[t|t b] log1 IH]; simpl; [done| |done].
  by rewrite IH.
Qed.

Lemma filter_window_upper (lo hi : Z) (l : list Z) :
  Forall (λ t, t ≤ hi) l →
  filter (λ t, lo < t ≤ hi) l = filter (λ t, lo < t) l.
Proof.
  induction 1 as [|t l Ht _ IH]; [done|].
  rewrite !filter_cons, IH.
  destruct (decide (lo < t ≤ hi)), (decide (lo < t)); (done || lia).
Qed.

Lemma filter_window_later (ws ws' : Z) (l : list Z) :
  ws ≤ ws' →
  filter (λ t, ws' < t) (filter (λ t, ws < t) l) = filter (λ t, ws' < t) l.
Proof.
  intros Hle. induction l as [|t l IH]; [done|].
  rewrite !filter_cons.
  destruct (decide (ws < t)), (decide (ws' < t));
    rewrite ?filter_cons; repeat case_decide; (lia || by rewrite ?IH).
Qed.

Lemma spec_log_split w m clock calls : ∀ i before l1 now b l2,
  spec_log w m clock i before calls = l1 ++ Checked now b :: l2 →
  b = Check_spec w m now (before ++ l1).
Proof.
  induction calls as [|c calls IH]; intros i before l1 now b l2 Heq.
  - by destruct l1.
  - destruct l1 as [|ev1 l1]; simpl in Heq; injection Heq as Hev Hrest.
    + rewrite app_nil_r. destruct c; simpl in Hev; congruence.
    + apply IH in Hrest. rewrite Hrest, Hev, <- app_assoc. done.
Qed.

Lemma length_spec_log w m clock calls : ∀ i before,
  length (spec_log w m clock i before calls) = length calls.
Proof.
  induction calls as [|c calls IH]; intros i before; simpl; [done|].
  by rewrite IH.
Qed.

Section window_runs.

Variable p : loc.
Variable w : Duration.
Variable m : Z.
Hypothesis w_range : Int64.min_int < w ≤ Int64.max_int.

Lemma run_window_call_inv c e before :
  monotonic e → window_inv p w m e before →
  ∃ e', run_window_call p c e
        = Some (answers w m c (clock e (reads e)) before, e') ∧
    monotonic e' ∧ clock e' = clock e ∧ reads e' = S (reads e) ∧
    window_inv p w m e' (before ++ [answers w m c (clock e (reads e)) before]).
Proof.
  intros Hmono (sw & Hp & Hw & Hm & Hle & Hagree).
  pose proof (Hmono (reads e) (S (reads e)) ltac:(lia)) as Hnext.
  unfold run_window_call.
  erewrite bind_Some; [|reflexivity].
  destruct c as [|value]; simpl.
  - erewrite bind_Some; [|by apply RecordFailure_run].
    eexists; split; [reflexivity|]. split; [exact Hmono|].
    do 2 (split; [reflexivity|]).
    eexists; split; [simpl; apply lookup_insert_eq|].
    split; [done|]. split; [done|]. simpl. rewrite recorded_app. simpl.
    split.
    + apply Forall_app; split.
      * eapply Forall_impl; [exact Hle|]. simpl. intros; lia.
      * repeat constructor. done.
    + intros ws Hws. rewrite !filter_app, Hagree by lia. done.
  - erewrite bind_Some; [|by apply Check_run].
    simpl. rewrite Hw, Hm, (neg_small _ w_range).
    replace (clock e (reads e) + - w) with (clock e (reads e) - w) by lia.
    unfold Check_spec, failures_within.
    rewrite (filter_window_upper _ _ _ Hle), Hagree by lia.
    eexists; split; [reflexivity|]. split; [exact Hmono|].
    do 2 (split; [reflexivity|]).
    eexists; split; [simpl; apply lookup_insert_eq|].
    split; [done|]. split; [done|]. simpl. rewrite recorded_app. simpl.
    rewrite app_nil_r. split.
    + eapply Forall_impl; [exact Hle|]. simpl. intros; lia.
    + intros ws Hws.
      rewrite <- (Hagree (clock e (reads e) - w)) by lia.
      rewrite filter_window_later by lia. apply Hagree. lia.
Qed.

Lemma run_window_inv calls : ∀ e before,
  monotonic e → window_inv p w m e before →
  ∃ e', run_window p calls e
        = Some (spec_log w m (clock e) (reads e) before calls, e').
Proof.
  induction calls as [|c calls IH]; intros e before Hmono Hinv; simpl.
  - by eexists.
  - destruct (run_window_call_inv c e before Hmono Hinv)
      as (e1 & Hc & Hmono1 & Hclock & Hreads & Hinv1).
    destruct (IH e1 _ Hmono1 Hinv1) as (e2 & Hrun).
    erewrite bind_Some; [|exact Hc].
    erewrite bind_Some; [|exact Hrun].
    rewrite Hclock, Hreads. by eexists.
Qed.

End window_runs.

(** C3. Take a sliding window fresh from its constructor and any sequence of
    [RecordFailure] and [Check] calls on it, at the readings of a monotonic
    clock.  The run returns the log the specification expects, one event for
    each call; in particular every [Check] in it returned true if and only if
    the number of earlier [RecordFailure] calls with a timestamp in the
    trailing [windowSize] before the reading of that [Check] is at least
    [maxFailures], whatever the earlier [Check] calls pruned and whenever they
    were made. *)
Theorem Check_counts_trailing_window w m n calls e :
  monotonic e →
  Int64.min_int < w ≤ Int64.max_int →
  ∃ p log e',
    (p ← NewSlidingWindowThreshold w m n;
     log ← run_window p calls;
     mret (p, log)) e = Some ((p, log), e') ∧
    log = spec_log w m (clock e) (reads e) [] calls ∧
    length log = length calls ∧
    ∀ before now b after,
      log = before ++ Checked now b :: after →
      (b = true ↔
       m ≤ Z.of_nat (length (filter (λ t, now - w < t ≤ now)
                               (recorded before)))).
Proof.
  intros Hmono Hw.
  set (p := fresh (dom (heap e))).
  set (sw := {| windowSize := w; maxFailures := m; name := n;
                failureTimes := [] |}).
  set (e0 := {| clock := clock e; reads := reads e;
                heap := <[p:=sw]> (heap e) |}).
  assert (window_inv p w m e0 []) as Hinv.
  { exists sw. split; [simpl; apply lookup_insert_eq|]. by repeat split. }
  destruct (run_window_inv p w m Hw calls e0 [] Hmono Hinv) as (e' & Hrun).
  simpl in Hrun. eexists p, _, e'. split.
  { erewrite bind_Some; [|reflexivity].
    erewrite bind_Some; [|exact Hrun]. done. }
  split; [done|]. split; [apply length_spec_log|].
  intros before now b after Heq.
  rewrite (spec_log_split _ _ _ _ _ _ _ _ _ _ Heq).
  unfold Check_spec, failures_within. simpl.
  by rewrite bool_decide_eq_true.
Qed.

(** ** The breaker: one call *)

Lemma states_distinct :
  StateClosed ≠ StateOpened ∧ StateClosed ≠ StateHalfOpen ∧
  StateHalfOpen ≠ StateOpened.
Proof. by repeat split. Qed.

Lemma RecordFailure_Closed cb e :
  state cb = StateClosed →
  RecordFailure cb e
  = (let cb1 := set_successes 0 (set_failures (Int64.incr (failures cb)) cb) in
     b ← Switch_Check (failureSwitch cb)
           (calculateCheckValue cb1 (failures cb1) (failureThreshold cb));
     if (b : bool) then
       now ← time_Now;
       mret (moved_to StateOpened now cb)
     else mret cb1) e.
Proof.
  intros Hst. unfold RecordFailure. rewrite Hst. simpl. done.
Qed.

Lemma RecordFailure_HalfOpen cb e :
  state cb = StateHalfOpen →
  RecordFailure cb e
  = Some (moved_to StateOpened (clock e (reads e)) cb, after_reads 1 e).
Proof.
  intros Hst. unfold RecordFailure. rewrite Hst. simpl. done.
Qed.

Lemma RecordFailure_Opened cb e :
  state cb = StateOpened → RecordFailure cb e = Some (cb, e).
Proof.
  intros Hst. unfold RecordFailure. rewrite Hst. simpl. done.
Qed.

Lemma RecordSuccess_Closed cb e :
  state cb = StateClosed →
  RecordSuccess cb e
  = Some (set_failures 0 (set_successes (Int64.incr (successes cb)) cb), e).
Proof.
  intros Hst. unfold RecordSuccess. rewrite Hst. simpl. done.
Qed.

Lemma RecordSuccess_HalfOpen cb e :
  state cb = StateHalfOpen →
  RecordSuccess cb e
  = (let cb1 := set_failures 0 (set_successes (Int64.incr (successes cb)) cb) in
     b ← Switch_Check (successSwitch cb)
           (calculateCheckValue cb1 (successes cb1) (successThreshold cb));
     if (b : bool) then
       now ← time_Now;
       mret (moved_to StateClosed now cb)
     else mret cb1) e.
Proof.
  intros Hst. unfold RecordSuccess. rewrite Hst. simpl. done.
Qed.

Lemma RecordSuccess_Opened cb e :
  state cb = StateOpened → RecordSuccess cb e = Some (cb, e).
Proof.
  intros Hst. unfold RecordSuccess. rewrite Hst. simpl. done.
Qed.

Lemma Allow_not_Opened cb e :
  state cb ≠ StateOpened → Allow cb e = Some ((true, cb), e).
Proof.
  intros Hst. unfold Allow. rewrite bool_decide_eq_false_2 by done.
  simpl. unfold mbind, M_bind, mret, M_ret.
  by rewrite bool_decide_eq_false_2.
Qed.

Lemma Allow_Opened cb e :
  state cb = StateOpened →
  Allow cb e
  = if bool_decide (openedTimeout cb
                    < Time_Sub (clock e (reads e)) (lastStateChange cb))
    then Some ((true, moved_to StateHalfOpen (clock e (S (reads e))) cb),
               after_reads 2 e)
    else Some ((false, cb), after_reads 1 e).
Proof.
  intros Hst. unfold Allow. rewrite Hst. simpl.
  unfold mbind, M_bind, time_Since, time_Now, mret, M_ret. simpl.
  case_bool_decide; simpl; [done|]. by rewrite Hst.
Qed.

Lemma State_not_Opened cb e :
  state cb ≠ StateOpened → State cb e = Some ((state cb, cb), e).
Proof.
  intros Hst. unfold State. by rewrite bool_decide_eq_false_2.
Qed.

Lemma State_Opened cb e :
  state cb = StateOpened →
  State cb e
  = if bool_decide (openedTimeout cb
                    < Time_Sub (clock e (reads e)) (lastStateChange cb))
    then Some ((StateHalfOpen,
                moved_to StateHalfOpen (clock e (S (reads e))) cb),
               after_reads 2 e)
    else Some ((StateOpened, cb), after_reads 1 e).
Proof.
  intros Hst. unfold State. rewrite Hst. simpl.
  unfold mbind, M_bind, time_Since, time_Now, mret, M_ret. simpl.
  case_bool_decide; simpl; [done|]. by rewrite Hst.
Qed.

(** ** Integer-count thresholds *)

Lemma same_config_refl cb : same_config cb cb.
Proof. by repeat split. Qed.

Lemma RecordFailure_Closed_count N cb e :
  state cb = StateClosed → counts_failures N cb →
  RecordFailure cb e
  = if bool_decide (N ≤ Int64.incr (failures cb))
    then Some (moved_to StateOpened (clock e (reads e)) cb, after_reads 1 e)
    else Some (set_successes 0 (set_failures (Int64.incr (failures cb)) cb), e).
Proof.
  intros Hst [Hth Hsw]. rewrite RecordFailure_Closed by done.
  rewrite Hsw, Hth. simpl.
  unfold mbind, M_bind, mret, M_ret. simpl.
  by case_bool_decide.
Qed.

Lemma RecordSuccess_HalfOpen_count N cb e :
  state cb = StateHalfOpen → counts_successes N cb →
  RecordSuccess cb e
  = if bool_decide (N ≤ Int64.incr (successes cb))
    then Some (moved_to StateClosed (clock e (reads e)) cb, after_reads 1 e)
    else Some (set_failures 0 (set_successes (Int64.incr (successes cb)) cb), e).
Proof.
  intros Hst [Hth Hsw]. rewrite RecordSuccess_HalfOpen by done.
  rewrite Hsw, Hth. simpl.
  unfold mbind, M_bind, mret, M_ret. simpl.
  by case_bool_decide.
Qed.

Lemma RecordFailure_below_limit N e k : ∀ cb,
  state cb = StateClosed → counts_failures N cb →
  Int64.in_range N → Int64.min_int ≤ failures cb →
  failures cb + Z.of_nat k < N →
  ∃ cb_k, repeat_call k RecordFailure cb e = Some (cb_k, e) ∧
    state cb_k = StateClosed ∧
    failures cb_k = failures cb + Z.of_nat k ∧
    lastStateChange cb_k = lastStateChange cb ∧
    same_config cb cb_k ∧
    (k = 0%nat → cb_k = cb) ∧ (k ≠ 0%nat → successes cb_k = 0).
Proof.
  induction k as [|k IH]; intros cb Hst Hcnt HN Hlo Hlt.
  - exists cb. simpl. repeat split; (done || lia).
  - assert (Int64.incr (failures cb) = failures cb + 1) as Hincr.
    { apply incr_small. unfold Int64.in_range in HN. lia. }
    pose proof (RecordFailure_Closed_count N cb e Hst Hcnt) as Hstep.
    rewrite Hincr, bool_decide_eq_false_2 in Hstep by lia.
    simpl. erewrite bind_Some; [|exact Hstep].
    destruct (IH (set_successes 0 (set_failures (failures cb + 1) cb)))
      as (cb_k & Hrun & Hst_k & Hf & Hl & Hcfg & _ & Hs);
      simpl; try (done || lia).
    destruct (decide (k = 0%nat)) as [->|Hk].
    + simpl in Hrun. simplify_eq. eexists. split; [reflexivity|].
      simpl. repeat split; (done || lia).
    + exists cb_k. split; [exact Hrun|].
      destruct Hcfg as (? & ? & ? & ? & ?). simpl in *.
      repeat split; try (done || lia || tauto).
Qed.

Lemma RecordSuccess_below_limit N e k : ∀ cb,
  state cb = StateHalfOpen → counts_successes N cb →
  Int64.in_range N → Int64.min_int ≤ successes cb →
  successes cb + Z.of_nat k < N →
  ∃ cb_k, repeat_call k RecordSuccess cb e = Some (cb_k, e) ∧
    state cb_k = StateHalfOpen ∧
    successes cb_k = successes cb + Z.of_nat k ∧
    lastStateChange cb_k = lastStateChange cb ∧
    same_config cb cb_k ∧
    (k = 0%nat → cb_k = cb) ∧ (k ≠ 0%nat → failures cb_k = 0).
Proof.
  induction k as [|k IH]; intros cb Hst Hcnt HN Hlo Hlt.
  - exists cb. simpl. repeat split; (done || lia).
  - assert (Int64.incr (successes cb) = successes cb + 1) as Hincr.
    { apply incr_small. unfold Int64.in_range in HN. lia. }
    pose proof (RecordSuccess_HalfOpen_count N cb e Hst Hcnt) as Hstep.
    rewrite Hincr, bool_decide_eq_false_2 in Hstep by lia.
    simpl. erewrite bind_Some; [|exact Hstep].
    destruct (IH (set_failures 0 (set_successes (successes cb + 1) cb)))
      as (cb_k & Hrun & Hst_k & Hf & Hl & Hcfg & _ & Hs);
      simpl; try (done || lia).
    destruct (decide (k = 0%nat)) as [->|Hk].
    + simpl in Hrun. simplify_eq. eexists. split; [reflexivity|].
      simpl. repeat split; (done || lia).
    + exists cb_k. split; [exact Hrun|].
      destruct Hcfg as (? & ? & ? & ? & ?). simpl in *.
      repeat split; try (done || lia || tauto).
Qed.

(** C1. Take a Closed breaker whose failure threshold is the integer count
    of limit [N], and [k] calls of [RecordFailure] during which the failure
    count stayed below [N].  The breaker is then still Closed, with the count
    raised by [k] and [lastStateChange] untouched; the next call moves it to
    Open if and only if the count it reaches is at least [N], and then both
    counters are 0 and [lastStateChange] is the clock reading of that call. *)
Theorem RecordFailure_opens_at_limit N cb e k :
  state cb = StateClosed → counts_failures N cb →
  Int64.in_range N →
  Int64.min_int ≤ failures cb < Int64.max_int →
  (k = 0%nat ∨ failures cb + Z.of_nat k < N) →
  ∃ cb_k cb' e',
    repeat_call k RecordFailure cb e = Some (cb_k, e) ∧
    state cb_k = StateClosed ∧
    failures cb_k = failures cb + Z.of_nat k ∧
    lastStateChange cb_k = lastStateChange cb ∧
    RecordFailure cb_k e = Some (cb', e') ∧
    same_config cb cb' ∧
    (state cb' = StateOpened ↔ N ≤ failures cb + Z.of_nat k + 1) ∧
    (N ≤ failures cb + Z.of_nat k + 1 →
       state cb' = StateOpened ∧ failures cb' = 0 ∧ successes cb' = 0 ∧
       lastStateChange cb' = clock e (reads e) ∧ e' = after_reads 1 e) ∧
    (failures cb + Z.of_nat k + 1 < N →
       state cb' = StateClosed ∧ failures cb' = failures cb + Z.of_nat k + 1 ∧
       successes cb' = 0 ∧
       lastStateChange cb' = lastStateChange cb ∧ e' = e).
Proof.
  intros Hst Hcnt HN Hf Hk.
  assert (∃ cb_k, repeat_call k RecordFailure cb e = Some (cb_k, e) ∧
            state cb_k = StateClosed ∧
            failures cb_k = failures cb + Z.of_nat k ∧
            lastStateChange cb_k = lastStateChange cb ∧
            same_config cb cb_k) as (cb_k & Hrun & Hst_k & Hf_k & Hl_k & Hcfg).
  { destruct Hk as [->|Hk].
    - exists cb. simpl. repeat split; (done || lia).
    - destruct (RecordFailure_below_limit N e k cb) as (cb_k & H);
        try (done || lia).
      exists cb_k. tauto. }
  assert (counts_failures N cb_k) as Hcnt_k.
  { destruct Hcnt as [Hth Hsw], Hcfg as (Hth' & _ & Hsw' & _).
    split; congruence. }
  assert (Int64.incr (failures cb_k) = failures cb + Z.of_nat k + 1) as Hincr.
  { rewrite <- Hf_k. apply incr_small.
    unfold Int64.in_range in HN. lia. }
  pose proof (RecordFailure_Closed_count N cb_k e Hst_k Hcnt_k) as Hstep.
  rewrite Hincr in Hstep.
  destruct Hcfg as (? & ? & ? & ? & ?).
  case_bool_decide as Hlim.
  - eexists cb_k, _, _. do 4 (split; [done|]). split; [exact Hstep|].
    repeat split; try done; simpl; try lia.
  - eexists cb_k, _, _. do 4 (split; [done|]). split; [exact Hstep|].
    repeat split; try done; simpl; try lia.
    rewrite Hst_k. done.
Qed.

(** C5. Take a HalfOpen breaker whose success threshold is the integer count
    of limit [N], and [k] calls of [RecordSuccess] during which the success
    count stayed below [N].  The breaker is then still HalfOpen, with the
    count raised by [k]; the next call moves it to Closed if and only if the
    count it reaches is at least [N], and then both counters are 0 and
    [lastStateChange] is the clock reading of that call. *)
Theorem RecordSuccess_closes_at_limit N cb e k :
  state cb = StateHalfOpen → counts_successes N cb →
  Int64.in_range N →
  Int64.min_int ≤ successes cb < Int64.max_int →
  (k = 0%nat ∨ successes cb + Z.of_nat k < N) →
  ∃ cb_k cb' e',
    repeat_call k RecordSuccess cb e = Some (cb_k, e) ∧
    state cb_k = StateHalfOpen ∧
    successes cb_k = successes cb + Z.of_nat k ∧
    lastStateChange cb_k = lastStateChange cb ∧
    RecordSuccess cb_k e = Some (cb', e') ∧
    same_config cb cb' ∧
    (state cb' = StateClosed ↔ N ≤ successes cb + Z.of_nat k + 1) ∧
    (N ≤ successes cb + Z.of_nat k + 1 →
       state cb' = StateClosed ∧ failures cb' = 0 ∧ successes cb' = 0 ∧
       lastStateChange cb' = clock e (reads e) ∧ e' = after_reads 1 e) ∧
    (successes cb + Z.of_nat k + 1 < N →
       state cb' = StateHalfOpen ∧
       successes cb' = successes cb + Z.of_nat k + 1 ∧ failures cb' = 0 ∧
       lastStateChange cb' = lastStateChange cb ∧ e' = e).
Proof.
  intros Hst Hcnt HN Hf Hk.
  assert (∃ cb_k, repeat_call k RecordSuccess cb e = Some (cb_k, e) ∧
            state cb_k = StateHalfOpen ∧
            successes cb_k = successes cb + Z.of_nat k ∧
            lastStateChange cb_k = lastStateChange cb ∧
            same_config cb cb_k) as (cb_k & Hrun & Hst_k & Hf_k & Hl_k & Hcfg).
  { destruct Hk as [->|Hk].
    - exists cb. simpl. repeat split; (done || lia).
    - destruct (RecordSuccess_below_limit N e k cb) as (cb_k & H);
        try (done || lia).
      exists cb_k. tauto. }
  assert (counts_successes N cb_k) as Hcnt_k.
  { destruct Hcnt as [Hth Hsw], Hcfg as (_ & Hth' & _ & Hsw' & _).
    split; congruence. }
  assert (Int64.incr (successes cb_k) = successes cb + Z.of_nat k + 1) as Hincr.
  { rewrite <- Hf_k. apply incr_small.
    unfold Int64.in_range in HN. lia. }
  pose proof (RecordSuccess_HalfOpen_count N cb_k e Hst_k Hcnt_k) as Hstep.
  rewrite Hincr in Hstep.
  destruct Hcfg as (? & ? & ? & ? & ?).
  case_bool_decide as Hlim.
  - eexists cb_k, _, _. do 4 (split; [done|]). split; [exact Hstep|].
    repeat split; try done; simpl; try lia.
  - eexists cb_k, _, _. do 4 (split; [done|]). split; [exact Hstep|].
    repeat split; try done; simpl; try lia.
    rewrite Hst_k. done.
Qed.

(** ** The cooldown *)

Lemma Time_Sub_exact t u : Int64.in_range (t - u) → Time_Sub t u = t - u.
Proof.
  unfold Time_Sub, Int64.saturate, Int64.in_range. intros Hr.
  by rewrite !bool_decide_eq_false_2 by lia.
Qed.

Lemma after_reads_reads n e : reads (after_reads n e) = (n + reads e)%nat.
Proof. done. Qed.

Lemma after_reads_after_reads n k e :
  after_reads n (after_reads k e) = after_reads (n + k) e.
Proof. unfold after_reads. simpl. f_equal. lia. Qed.

Lemma Allow_refused_run cb n : ∀ e,
  state cb = StateOpened →
  (∀ i, (i < n)%nat →
     Time_Sub (clock e (i + reads e)) (lastStateChange cb) ≤ openedTimeout cb) →
  repeat_Allow n cb e = Some ((replicate n false, cb), after_reads n e).
Proof.
  induction n as [|n IH]; intros e Hst Hbefore.
  - simpl. unfold mret, M_ret, after_reads. by destruct e.
  - pose proof (Hbefore 0%nat ltac:(lia)) as H0. simpl in H0.
    pose proof (Allow_Opened cb e Hst) as Hstep.
    rewrite bool_decide_eq_false_2 in Hstep by lia.
    change (repeat_Allow (S n) cb e)
      with ((r ← Allow cb; rs ← repeat_Allow n r.2;
             mret (r.1 :: rs.1, rs.2)) e).
    erewrite bind_Some; [|exact Hstep].
    erewrite bind_Some; [|apply IH; [exact Hst|]].
    + unfold mret, M_ret. simpl. rewrite after_reads_after_reads.
      do 3 f_equal. lia.
    + intros i Hi. rewrite after_reads_reads. simpl.
      replace (i + S (reads e))%nat with (S i + reads e)%nat by lia.
      apply Hbefore. lia.
Qed.

Lemma Allow_admitted_run cb n : ∀ e,
  state cb = StateOpened →
  (∀ i, (i < n)%nat →
     Time_Sub (clock e (i + reads e)) (lastStateChange cb) ≤ openedTimeout cb) →
  openedTimeout cb < Time_Sub (clock e (n + reads e)) (lastStateChange cb) →
  repeat_Allow (S n) cb e
  = Some ((replicate n false ++ [true],
           moved_to StateHalfOpen (clock e (S n + reads e)) cb),
          after_reads (n + 2) e).
Proof.
  induction n as [|n IH]; intros e Hst Hbefore Hafter.
  - simpl in *. pose proof (Allow_Opened cb e Hst) as Hstep.
    rewrite bool_decide_eq_true_2 in Hstep by done.
    erewrite bind_Some; [|exact Hstep]. done.
  - pose proof (Hbefore 0%nat ltac:(lia)) as H0. simpl in H0.
    pose proof (Allow_Opened cb e Hst) as Hstep.
    rewrite bool_decide_eq_false_2 in Hstep by lia.
    change (repeat_Allow (S (S n)) cb e)
      with ((r ← Allow cb; rs ← repeat_Allow (S n) r.2;
             mret (r.1 :: rs.1, rs.2)) e).
    erewrite bind_Some; [|exact Hstep].
    erewrite bind_Some; [|apply IH; [exact Hst| |]].
    + unfold mret, M_ret. simpl. rewrite after_reads_after_reads.
      do 3 f_equal; [|f_equal; lia].
      unfold moved_to. f_equal. f_equal. lia.
    + intros i Hi. rewrite after_reads_reads. simpl.
      replace (i + S (reads e))%nat with (S i + reads e)%nat by lia.
      apply Hbefore. lia.
    + rewrite after_reads_reads. simpl.
      replace (n + S (reads e))%nat with (S n + reads e)%nat by lia.
      exact Hafter.
Qed.

(** C2, as the code has it.  Take an Open breaker and [n] calls of [Allow]
    made while the time since [lastStateChange], as [time.Since] reports it,
    is at most [openedTimeout], followed by a call made when that time is
    strictly greater than [openedTimeout].  Each of the first [n] calls
    returns false and leaves the breaker exactly as it was, state, counters,
    [lastStateChange] and configuration alike: after any [j] of them the
    breaker is the one they started from.  The last call returns true and
    leaves the breaker HalfOpen, both counters 0, [lastStateChange] stamped
    with the clock reading that follows the one compared with the timeout,
    and the configuration kept. *)
Theorem Allow_after_cooldown cb n e :
  state cb = StateOpened →
  (∀ i, (i < n)%nat →
     Time_Sub (clock e (i + reads e)) (lastStateChange cb) ≤ openedTimeout cb) →
  openedTimeout cb < Time_Sub (clock e (n + reads e)) (lastStateChange cb) →
  (∀ j, (j ≤ n)%nat →
     repeat_Allow j cb e = Some ((replicate j false, cb), after_reads j e)) ∧
  repeat_Allow (S n) cb e
  = Some ((replicate n false ++ [true],
           moved_to StateHalfOpen (clock e (S n + reads e)) cb),
          after_reads (n + 2) e).
Proof.
  intros Hst Hbefore Hafter. split.
  - intros j Hj. apply Allow_refused_run; [exact Hst|].
    intros i Hi. apply Hbefore. lia.
  - by apply Allow_admitted_run.
Qed.

(** C2, as the claim has it, fails: a call of [Allow] made when exactly
    [openedTimeout] has elapsed since the transition returns false and leaves
    the breaker Open. *)
Lemma Allow_at_exact_timeout_refused :
  ¬ (∀ cb e,
       state cb = StateOpened →
       openedTimeout cb ≤ clock e (reads e) - lastStateChange cb →
       ∃ cb' e', Allow cb e = Some ((true, cb'), e') ∧
                 state cb' = StateHalfOpen).
Proof.
  intros Hclaim.
  destruct (Hclaim (moved_to StateOpened 0 demo_breaker)
              (after_reads 2 demo_env)) as (cb' & e' & Hrun & _).
  - reflexivity.
  - vm_compute. discriminate.
  - vm_compute in Hrun. discriminate.
Qed.

(** C6. A call of [RecordFailure] on a HalfOpen breaker, whatever its
    counters hold, returns and leaves the breaker Open with both counters 0
    and [lastStateChange] stamped with the clock reading of the call; the
    thresholds, switches and timeout are kept. *)
Theorem RecordFailure_HalfOpen_reopens cb e :
  state cb = StateHalfOpen →
  ∃ cb',
    RecordFailure cb e = Some (cb', after_reads 1 e) ∧
    state cb' = StateOpened ∧ failures cb' = 0 ∧ successes cb' = 0 ∧
    lastStateChange cb' = clock e (reads e) ∧
    same_config cb cb'.
Proof.
  intros Hst. eexists. split; [by apply RecordFailure_HalfOpen|].
  by repeat split.
Qed.

(** C7. [UpdateValues] returns without reading the clock or touching the
    heap, so it evaluates no threshold; the breaker it leaves has the state,
    the two counters and [lastStateChange] it had, and the new thresholds,
    the switches chosen for them and the new timeout.  A following
    [RecordFailure] while Closed, or [RecordSuccess] while HalfOpen,
    consults the new threshold. *)
Theorem UpdateValues_keeps_state_and_counters newFailure newSuccess newTimeout
    cb e :
  ∃ cb',
    UpdateValues newFailure newSuccess newTimeout cb e = Some (cb', e) ∧
    state cb' = state cb ∧ failures cb' = failures cb ∧
    successes cb' = successes cb ∧
    lastStateChange cb' = lastStateChange cb ∧
    failureThreshold cb' = newFailure ∧ successThreshold cb' = newSuccess ∧
    failureSwitch cb' = ChooseSwitch newFailure ∧
    successSwitch cb' = ChooseSwitch newSuccess ∧
    openedTimeout cb' = newTimeout ∧
    (state cb = StateClosed →
     RecordFailure cb' e
     = (let cb1 := set_successes 0
                     (set_failures (Int64.incr (failures cb)) cb') in
        b ← CustomThreshold_Check newFailure
              (calculateCheckValue cb1 (failures cb1) newFailure);
        if (b : bool) then
          now ← time_Now; mret (moved_to StateOpened now cb')
        else mret cb1) e) ∧
    (state cb = StateHalfOpen →
     RecordSuccess cb' e
     = (let cb1 := set_failures 0
                     (set_successes (Int64.incr (successes cb)) cb') in
        b ← CustomThreshold_Check newSuccess
              (calculateCheckValue cb1 (successes cb1) newSuccess);
        if (b : bool) then
          now ← time_Now; mret (moved_to StateClosed now cb')
        else mret cb1) e).
Proof.
  eexists. split; [reflexivity|]. simpl.
  do 9 (split; [reflexivity|]). split; intros Hst.
  - by rewrite RecordFailure_Closed.
  - by rewrite RecordSuccess_HalfOpen.
Qed.

(** ** What the breaker maintains *)

Lemma moved_to_inv st now cb :
  breaker_inv cb →
  st = StateClosed ∨ st = StateHalfOpen ∨ st = StateOpened →
  breaker_inv (moved_to st now cb).
Proof.
  intros (_ & _ & _ & Hf & Hs) Hst.
  split; [by left|]. split; [done|]. split; [exact Hst|]. by split.
Qed.

Lemma time_Now_inv e now e' :
  time_Now e = Some (now, e') → now = clock e (reads e) ∧ e' = after_reads 1 e.
Proof. unfold time_Now. intros [= <- <-]. done. Qed.

Lemma RecordFailure_cases cb e cb' e' :
  RecordFailure cb e = Some (cb', e') →
  cb' = cb ∧ state cb ≠ StateClosed ∧ state cb ≠ StateHalfOpen ∨
  (∃ now, cb' = moved_to StateOpened now cb) ∧ state cb ≠ StateOpened ∨
  cb' = set_successes 0 (set_failures (Int64.incr (failures cb)) cb) ∧
  state cb = StateClosed.
Proof.
  intros Hrun.
  destruct (decide (state cb = StateClosed)) as [Hc|Hc].
  - rewrite RecordFailure_Closed in Hrun by done. simpl in Hrun.
    apply bind_inv in Hrun as ([] & e1 & _ & Hrun).
    + apply bind_inv in Hrun as (now & e2 & _ & [= <- <-]).
      right; left. split; [by eexists|]. by rewrite Hc.
    + injection Hrun as <- <-. by right; right.
  - destruct (decide (state cb = StateHalfOpen)) as [Hh|Hh].
    + rewrite RecordFailure_HalfOpen in Hrun by done.
      injection Hrun as <- <-. right; left.
      split; [by eexists|]. by rewrite Hh.
    + unfold RecordFailure in Hrun.
      rewrite !bool_decide_eq_false_2 in Hrun by done.
      left. by case_bool_decide; injection Hrun as <- <-.
Qed.

Lemma RecordSuccess_cases cb e cb' e' :
  RecordSuccess cb e = Some (cb', e') →
  cb' = cb ∧ state cb ≠ StateClosed ∧ state cb ≠ StateHalfOpen ∨
  (∃ now, cb' = moved_to StateClosed now cb) ∧ state cb = StateHalfOpen ∨
  cb' = set_failures 0 (set_successes (Int64.incr (successes cb)) cb) ∧
  (state cb = StateClosed ∨ state cb = StateHalfOpen).
Proof.
  intros Hrun.
  destruct (decide (state cb = StateClosed)) as [Hc|Hc].
  - rewrite RecordSuccess_Closed in Hrun by done.
    injection Hrun as <- <-. right; right. by split; [|left].
  - destruct (decide (state cb = StateHalfOpen)) as [Hh|Hh].
    + rewrite RecordSuccess_HalfOpen in Hrun by done. simpl in Hrun.
      apply bind_inv in Hrun as ([] & e1 & _ & Hrun).
      * apply bind_inv in Hrun as (now & e2 & _ & [= <- <-]).
        right; left. split; [by eexists|done].
      * injection Hrun as <- <-. right; right. by split; [|right].
    + unfold RecordSuccess in Hrun.
      rewrite !bool_decide_eq_false_2 in Hrun by done.
      left. by case_bool_decide; injection Hrun as <- <-.
Qed.

Lemma Allow_cases cb e r e' :
  Allow cb e = Some (r, e') →
  r.2 = cb ∨ (∃ now, r.2 = moved_to StateHalfOpen now cb) ∧
             state cb = StateOpened.
Proof.
  intros Hrun. destruct (decide (state cb = StateOpened)) as [Ho|Ho].
  - rewrite Allow_Opened in Hrun by done.
    case_bool_decide; injection Hrun as <- <-; [right|by left].
    split; [by eexists|done].
  - rewrite Allow_not_Opened in Hrun by done.
    injection Hrun as <- <-. by left.
Qed.

Lemma State_cases cb e r e' :
  State cb e = Some (r, e') →
  r.2 = cb ∨ (∃ now, r.2 = moved_to StateHalfOpen now cb) ∧
             state cb = StateOpened.
Proof.
  intros Hrun. destruct (decide (state cb = StateOpened)) as [Ho|Ho].
  - rewrite State_Opened in Hrun by done.
    case_bool_decide; injection Hrun as <- <-; [right|by left].
    split; [by eexists|done].
  - rewrite State_not_Opened in Hrun by done.
    injection Hrun as <- <-. by left.
Qed.

Lemma run_call_inv c cb e cb' e' :
  breaker_inv cb → run_call c cb e = Some (cb', e') → breaker_inv cb'.
Proof.
  intros Hinv Hrun.
  pose proof Hinv as (Hone & Hopen & Hst & Hfsw & Hssw).
  destruct c as [| | | |nf ns nt|w m n|p wc]; simpl in Hrun.
  - apply bind_inv in Hrun as (r & e1 & Hrun & [= <- <-]).
    apply Allow_cases in Hrun as [->|[[now ->] _]]; [done|].
    apply moved_to_inv; tauto.
  - apply bind_inv in Hrun as (r & e1 & Hrun & [= <- <-]).
    apply State_cases in Hrun as [->|[[now ->] _]]; [done|].
    apply moved_to_inv; tauto.
  - apply RecordSuccess_cases in Hrun as [[-> _]|[[[now ->] _]|[-> Hs]]];
      [done|apply moved_to_inv; tauto|].
    split; [by left|]. split; [|done]. simpl. intros Ho.
    rewrite Ho in Hs. by destruct Hs.
  - apply RecordFailure_cases in Hrun as [[-> _]|[[[now ->] _]|[-> Hs]]];
      [done|apply moved_to_inv; tauto|].
    split; [by right|]. split; [|done]. simpl. intros Ho.
    by rewrite Ho in Hs.
  - injection Hrun as <- <-. done.
  - apply bind_inv in Hrun as (r & e1 & _ & [= <- <-]). done.
  - apply bind_inv in Hrun as (r & e1 & _ & [= <- <-]). done.
Qed.

Lemma run_calls_inv calls : ∀ cb e cb' e',
  breaker_inv cb → run_calls calls cb e = Some (cb', e') → breaker_inv cb'.
Proof.
  induction calls as [|c calls IH]; intros cb e cb' e' Hinv Hrun.
  - by injection Hrun as <- <-.
  - simpl in Hrun. apply bind_inv in Hrun as (cb1 & e1 & Hc & Hrun).
    eapply IH; [|exact Hrun]. by eapply run_call_inv.
Qed.

Lemma breaker_run_inv ft st to calls e cb e' :
  breaker_run ft st to calls e = Some (cb, e') → breaker_inv cb.
Proof.
  unfold breaker_run. intros Hrun.
  apply bind_inv in Hrun as (cb0 & e0 & Hnew & Hrun).
  eapply run_calls_inv; [|exact Hrun].
  unfold NewCircuitBreaker in Hnew.
  apply bind_inv in Hnew as (now & e1 & _ & [= <- <-]).
  split; [by left|]. split; [done|]. split; [by left|]. done.
Qed.

(** The breakers the package builds satisfy the hypotheses on the switch of
    the two theorems on integer counts. *)
Lemma breaker_run_counts ft st to calls e cb e' N :
  breaker_run ft st to calls e = Some (cb, e') →
  (failureThreshold cb = Int64Threshold_ptr (NewInt64Threshold N) →
   counts_failures N cb) ∧
  (successThreshold cb = Int64Threshold_ptr (NewInt64Threshold N) →
   counts_successes N cb).
Proof.
  intros Hrun.
  destruct (breaker_run_inv _ _ _ _ _ _ _ Hrun) as (_ & _ & _ & Hf & Hs).
  by split; intros Hth; split.
Qed.

(** C10. In every state a breaker reaches from its constructor by calls of
    its methods and of the methods of the sliding windows, if the state tag
    is Open then both counters are 0, and [RecordSuccess] and
    [RecordFailure] return leaving the breaker, the clock and the heap as
    they were; and whenever one call takes the breaker from another state to
    Open, both counters are 0 after it. *)
Theorem Opened_counters_are_zero ft st to calls e cb e' :
  breaker_run ft st to calls e = Some (cb, e') →
  (state cb = StateOpened →
     failures cb = 0 ∧ successes cb = 0 ∧
     RecordSuccess cb e' = Some (cb, e') ∧
     RecordFailure cb e' = Some (cb, e')) ∧
  (∀ c cb1 e1,
     run_call c cb e' = Some (cb1, e1) →
     state cb ≠ StateOpened → state cb1 = StateOpened →
     failures cb1 = 0 ∧ successes cb1 = 0).
Proof.
  intros Hrun. pose proof (breaker_run_inv _ _ _ _ _ _ _ Hrun) as Hinv.
  split.
  - intros Ho. destruct Hinv as (_ & Hopen & _).
    split; [by apply Hopen|]. split; [by apply Hopen|].
    by rewrite RecordSuccess_Opened, RecordFailure_Opened.
  - intros c cb1 e1 Hc _ Ho.
    by apply (run_call_inv c cb e' cb1 e1 Hinv Hc).
Qed.

Lemma run_call_state_or_reset c cb e cb1 e1 :
  run_call c cb e = Some (cb1, e1) →
  state cb1 = state cb ∨ (failures cb1 = 0 ∧ successes cb1 = 0).
Proof.
  intros Hrun.
  destruct c as [| | | |nf ns nt|w m n|p wc]; simpl in Hrun.
  - apply bind_inv in Hrun as (r & e0 & Hrun & [= <- <-]).
    apply Allow_cases in Hrun as [->|[[now ->] _]]; [by left|by right].
  - apply bind_inv in Hrun as (r & e0 & Hrun & [= <- <-]).
    apply State_cases in Hrun as [->|[[now ->] _]]; [by left|by right].
  - apply RecordSuccess_cases in Hrun as [[-> _]|[[[now ->] _]|[-> _]]];
      [by left|by right|by left].
  - apply RecordFailure_cases in Hrun as [[-> _]|[[[now ->] _]|[-> _]]];
      [by left|by right|by left].
  - injection Hrun as <- <-. by left.
  - apply bind_inv in Hrun as (r & e0 & _ & [= <- <-]). by left.
  - apply bind_inv in Hrun as (r & e0 & _ & [= <- <-]). by left.
Qed.

(** C4, as the code has it.  In every state a breaker reaches from its
    constructor, at most one of the two counters is non-zero.  Both are zero
    right after the construction, which leaves the breaker Closed, and right
    after every state transition: whenever a call leaves the breaker with
    another state tag than it had, both counters are 0.  While the breaker is
    Closed or HalfOpen, [RecordSuccess] leaves [failures] at 0, and
    [RecordFailure] leaves [successes] at 0. *)
Theorem counters_never_both_nonzero ft st to calls e cb e' :
  breaker_run ft st to calls e = Some (cb, e') →
  ¬ (failures cb ≠ 0 ∧ successes cb ≠ 0) ∧
  (calls = [] →
   state cb = StateClosed ∧ failures cb = 0 ∧ successes cb = 0) ∧
  (∀ c cb1 e1,
     run_call c cb e' = Some (cb1, e1) → state cb1 ≠ state cb →
     failures cb1 = 0 ∧ successes cb1 = 0) ∧
  (state cb = StateClosed ∨ state cb = StateHalfOpen →
   (∀ cb1 e1, RecordSuccess cb e' = Some (cb1, e1) → failures cb1 = 0) ∧
   (∀ cb1 e1, RecordFailure cb e' = Some (cb1, e1) → successes cb1 = 0)).
Proof.
  intros Hrun. pose proof (breaker_run_inv _ _ _ _ _ _ _ Hrun) as Hinv.
  split; [destruct Hinv as ([?|?] & _); tauto|]. split; [|split].
  - intros ->. unfold breaker_run, NewCircuitBreaker in Hrun.
    apply bind_inv in Hrun as (cb0 & e0 & Hnew & [= <- <-]).
    apply bind_inv in Hnew as (now & e1 & _ & [= <- <-]). done.
  - intros c cb1 e1 Hc Hne.
    by apply run_call_state_or_reset in Hc as [Hsame|Hzero].
  - intros Hst. split; intros cb1 e1 Hc.
    + apply RecordSuccess_cases in Hc as [[-> [? ?]]|[[[now ->] _]|[-> Hs]]];
        [tauto|done|done].
    + apply RecordFailure_cases in Hc as [[-> [? ?]]|[[[now ->] _]|[-> Hs]]];
        [tauto|done|done].
Qed.

(** C4, as the claim has it, fails: a breaker fresh from its constructor is
    Closed and both of its counters are zero. *)
Lemma fresh_breaker_counters_both_zero :
  ¬ (∀ ft st to calls e cb e',
       breaker_run ft st to calls e = Some (cb, e') →
       state cb = StateClosed ∨ state cb = StateHalfOpen →
       (failures cb ≠ 0 ∧ successes cb = 0) ∨
       (failures cb = 0 ∧ successes cb ≠ 0)).
Proof.
  intros Hclaim.
  destruct (Hclaim (Int64Threshold_ptr (NewInt64Threshold 2))
              (Int64Threshold_ptr (NewInt64Threshold 1)) (100 * ms) []
              demo_env demo_breaker (after_reads 1 demo_env))
    as [[Hf _]|[_ Hs]].
  - reflexivity.
  - by left.
  - by apply Hf.
  - by apply Hs.
Qed.

(** ** Inputs of an unrecognized kind *)

(** The two calls of [RecordFailure] that build the window of the examples. *)
Example demo_window_built :
  (p ← NewSlidingWindowThreshold (200 * ms) 2 "demo";
   _ ← SlidingWindowThreshold_RecordFailure p;
   SlidingWindowThreshold_RecordFailure p) demo_env
  = Some (tt, demo_window_env).
Proof. reflexivity. Qed.

(** C9. On a value of a kind its type switch has no case for,
    [Int64Threshold.Check] returns false and so does
    [Float64Threshold.Check]; both return without a panic and touch
    nothing.  The [Check] of a sliding window has no type switch, so no kind
    is unrecognized by it: whatever the value, it returns, without a panic,
    the answer it gives on nil, which is whether the entries it keeps are at
    least [maxFailures]. *)
Theorem Check_unrecognized_kind value e :
  (∀ t, Int64Threshold_recognizes value = false →
        CustomThreshold_Check (Int64Threshold_ptr t) value e
        = Some (false, e)) ∧
  (∀ t, Float64Threshold_recognizes value = false →
        CustomThreshold_Check (Float64Threshold_ptr t) value e
        = Some (false, e)) ∧
  (∀ p sw, heap e !! p = Some sw →
     let kept := filter (λ ft, clock e (reads e) + Int64.neg (windowSize sw) < ft)
                   (failureTimes sw) in
     ∃ e',
       CustomThreshold_Check (SlidingWindowThreshold_ptr p) value e
       = Some (bool_decide (maxFailures sw ≤ Z.of_nat (length kept)), e') ∧
       CustomThreshold_Check (SlidingWindowThreshold_ptr p) any_nil e
       = Some (bool_decide (maxFailures sw ≤ Z.of_nat (length kept)), e')).
Proof.
  split; [|split].
  - intros t Hk. destruct value; simpl in *; (done || discriminate).
  - intros t Hk. destruct value; simpl in *; (done || discriminate).
  - intros p sw Hp kept. eexists. simpl.
    rewrite !(Check_run e p sw) by done. done.
Qed.

(** ** The scenarios of the specification *)

(** Failure limit 2, success limit 1, timeout 100ms, on a clock read every
    50ms: two failures open the breaker, [Allow] 50ms later returns false,
    [Allow] 150ms after the opening returns true and the breaker is HalfOpen,
    and one success closes it. *)
Example breaker_scenario :
  (cb ← NewCircuitBreaker (Int64Threshold_ptr (NewInt64Threshold 2))
          (Int64Threshold_ptr (NewInt64Threshold 1)) (100 * ms);
   cb ← RecordFailure cb;
   cb ← RecordFailure cb;
   s1 ← mret (state cb);
   r1 ← Allow cb;
   _ ← time_Now;
   r2 ← Allow r1.2;
   cb ← RecordSuccess r2.2;
   mret (s1, r1.1, r2.1, state r2.2, state cb)) demo_env
  = Some ((StateOpened, false, true, StateHalfOpen, StateClosed),
          after_reads 7 demo_env).
Proof. reflexivity. Qed.

(** Window 50ms, limit 2: two failures, then [Check] is true; 60ms later
    [Check] is false and [GetCurrentFailures] returns 0. *)
Example window_scenario :
  (p ← NewSlidingWindowThreshold (50 * ms) 2 "expiration-test";
   _ ← SlidingWindowThreshold_RecordFailure p;
   _ ← SlidingWindowThreshold_RecordFailure p;
   b1 ← SlidingWindowThreshold_Check p any_nil;
   b2 ← SlidingWindowThreshold_Check p any_nil;
   n ← SlidingWindowThreshold_GetCurrentFailures p;
   mret (b1, b2, n))
    {| clock := λ n, nth n [0; 1 * ms; 2 * ms; 62 * ms] 0; reads := 0;
       heap := ∅ |}
  = Some ((true, false, 0),
          {| clock := λ n, nth n [0; 1 * ms; 2 * ms; 62 * ms] 0; reads := 4;
             heap := {[ 1%positive :=
                          {| windowSize := 50 * ms; maxFailures := 2;
                             name := "expiration-test";
                             failureTimes := [] |} ]} |}).
Proof. reflexivity. Qed.

(** A breaker whose failure threshold is a sliding window consults the
    window the caller records on: the second failure within the window
    opens it. *)
Example breaker_with_window_scenario :
  (p ← NewSlidingWindowThreshold (100 * ms) 2 "cb-integration";
   cb ← NewCircuitBreaker (SlidingWindowThreshold_ptr p)
          (Int64Threshold_ptr (NewInt64Threshold 2)) (50 * ms);
   _ ← SlidingWindowThreshold_RecordFailure p;
   cb ← RecordFailure cb;
   s1 ← mret (state cb);
   _ ← SlidingWindowThreshold_RecordFailure p;
   cb ← RecordFailure cb;
   mret (s1, state cb))
    {| clock := λ n, Z.of_nat n * ms; reads := 0; heap := ∅ |}
  = Some ((StateClosed, StateOpened),
          {| clock := λ n, Z.of_nat n * ms; reads := 6;
             heap := {[ 1%positive :=
                          {| windowSize := 100 * ms; maxFailures := 2;
                             name := "cb-integration";
                             failureTimes := [1 * ms; 3 * ms] |} ]} |}).
Proof. reflexivity. Qed.

(** A ratio threshold of 0.5 trips on the first failure of a fresh breaker:
    the ratio is 1/1. *)
Example breaker_with_ratio_scenario :
  (cb ← NewCircuitBreaker (Float64Threshold_ptr (NewFloat64Threshold 0.5))
          (Int64Threshold_ptr (NewInt64Threshold 2)) (50 * ms);
   cb ← RecordFailure cb;
   mret (state cb)) demo_env
  = Some (StateOpened, after_reads 2 demo_env).
Proof. reflexivity. Qed.

(** ** The properties at concrete inputs *)

Lemma demo_env_monotonic : monotonic demo_env.
Proof. intros i j Hij. simpl. unfold ms. lia. Qed.

Lemma RecordFailure_opens_at_limit_witness :
  ∃ cb_k cb' e',
    repeat_call 1 RecordFailure demo_breaker demo_env = Some (cb_k, demo_env) ∧
    state cb_k = StateClosed ∧ failures cb_k = 1 ∧
    RecordFailure cb_k demo_env = Some (cb', e') ∧
    state cb' = StateOpened ∧ failures cb' = 0 ∧ successes cb' = 0 ∧
    lastStateChange cb' = 0.
Proof.
  destruct (RecordFailure_opens_at_limit 2 demo_breaker demo_env 1)
    as (cb_k & cb' & e' & Hrun & Hst & Hf & _ & Hstep & _ & _ & Hopen & _).
  - reflexivity.
  - split; reflexivity.
  - unfold Int64.in_range, Int64.min_int, Int64.max_int. lia.
  - unfold Int64.min_int, Int64.max_int. simpl. lia.
  - right. simpl. lia.
  - destruct Hopen as (Ho & Hf' & Hs' & Hl & _); [simpl; lia|].
    exists cb_k, cb', e'. repeat split; assumption.
Defined.

Lemma RecordSuccess_closes_at_limit_witness :
  ∃ cb' e',
    RecordSuccess (moved_to StateHalfOpen (150 * ms) demo_breaker) demo_env
    = Some (cb', e') ∧
    state cb' = StateClosed ∧ failures cb' = 0 ∧ successes cb' = 0 ∧
    lastStateChange cb' = 0.
Proof.
  destruct (RecordSuccess_closes_at_limit 1
              (moved_to StateHalfOpen (150 * ms) demo_breaker) demo_env 0)
    as (cb_k & cb' & e' & Hrun & _ & _ & _ & Hstep & _ & _ & Hclose & _).
  - reflexivity.
  - split; reflexivity.
  - unfold Int64.in_range, Int64.min_int, Int64.max_int. lia.
  - unfold Int64.min_int, Int64.max_int. simpl. lia.
  - left. reflexivity.
  - destruct Hclose as (Ho & Hf' & Hs' & Hl & _); [simpl; lia|].
    assert (cb_k = moved_to StateHalfOpen (150 * ms) demo_breaker) as ->.
    { cbv [repeat_call mret M_ret] in Hrun. by injection Hrun. }
    exists cb', e'. repeat split; assumption.
Defined.

Lemma Allow_after_cooldown_witness :
  repeat_Allow 3 (moved_to StateOpened 0 demo_breaker) demo_env
  = Some (([false; false; false], moved_to StateOpened 0 demo_breaker),
          after_reads 3 demo_env) ∧
  repeat_Allow 4 (moved_to StateOpened 0 demo_breaker) demo_env
  = Some (([false; false; false; true],
           moved_to StateHalfOpen (200 * ms) demo_breaker),
          after_reads 5 demo_env).
Proof.
  destruct (Allow_after_cooldown (moved_to StateOpened 0 demo_breaker) 3
              demo_env) as [Hrefused Hadmitted].
  - reflexivity.
  - intros i Hi. destruct i as [|[|[|i]]]; [vm_compute; discriminate ..|lia].
  - vm_compute. reflexivity.
  - split; [apply (Hrefused 3%nat); lia|exact Hadmitted].
Defined.

Lemma Check_counts_trailing_window_witness :
  ∃ p log e',
    (p ← NewSlidingWindowThreshold (200 * ms) 2 "demo";
     log ← run_window p
             [Window_RecordFailure; Window_RecordFailure; Window_Check any_nil];
     mret (p, log)) demo_env = Some ((p, log), e') ∧
    length log = 3%nat.
Proof.
  destruct (Check_counts_trailing_window (200 * ms) 2 "demo"
              [Window_RecordFailure; Window_RecordFailure; Window_Check any_nil]
              demo_env)
    as (p & log & e' & Hrun & _ & Hlen & _).
  - exact demo_env_monotonic.
  - unfold Int64.min_int, Int64.max_int, ms. lia.
  - exists p, log, e'. split; assumption.
Defined.

Lemma counters_never_both_nonzero_witness :
  ∃ cb e',
    breaker_run (Int64Threshold_ptr (NewInt64Threshold 2))
      (Int64Threshold_ptr (NewInt64Threshold 1)) (100 * ms)
      [Call_RecordFailure; Call_RecordSuccess] demo_env = Some (cb, e') ∧
    successes cb = 1 ∧
    ¬ (failures cb ≠ 0 ∧ successes cb ≠ 0) ∧
    ∀ cb1 e1,
      run_call Call_RecordFailure cb e' = Some (cb1, e1) →
      state cb1 ≠ state cb → failures cb1 = 0 ∧ successes cb1 = 0.
Proof.
  exists (set_failures 0 (set_successes 1 demo_breaker)),
    (after_reads 1 demo_env).
  split; [reflexivity|]. split; [reflexivity|].
  destruct (counters_never_both_nonzero
              (Int64Threshold_ptr (NewInt64Threshold 2))
              (Int64Threshold_ptr (NewInt64Threshold 1)) (100 * ms)
              [Call_RecordFailure; Call_RecordSuccess] demo_env
              (set_failures 0 (set_successes 1 demo_breaker))
              (after_reads 1 demo_env)) as (Hone & _ & Hmove & _).
  - reflexivity.
  - split; [exact Hone|]. exact (Hmove Call_RecordFailure).
Defined.

Lemma Opened_counters_are_zero_witness :
  ∃ cb e',
    breaker_run (Int64Threshold_ptr (NewInt64Threshold 2))
      (Int64Threshold_ptr (NewInt64Threshold 1)) (100 * ms)
      [Call_RecordFailure; Call_RecordFailure] demo_env = Some (cb, e') ∧
    state cb = StateOpened ∧ failures cb = 0 ∧ successes cb = 0 ∧
    RecordFailure cb e' = Some (cb, e').
Proof.
  exists (moved_to StateOpened (50 * ms) demo_breaker),
    (after_reads 2 demo_env).
  split; [reflexivity|]. split; [reflexivity|].
  destruct (Opened_counters_are_zero
              (Int64Threshold_ptr (NewInt64Threshold 2))
              (Int64Threshold_ptr (NewInt64Threshold 1)) (100 * ms)
              [Call_RecordFailure; Call_RecordFailure] demo_env
              (moved_to StateOpened (50 * ms) demo_breaker)
              (after_reads 2 demo_env)) as [Hopen _].
  - reflexivity.
  - destruct Hopen as (Hf & Hs & _ & Hrun); [reflexivity|].
    repeat split; assumption.
Defined.

Lemma RecordFailure_HalfOpen_reopens_witness :
  ∃ cb',
    RecordFailure
      (set_successes 5 (moved_to StateHalfOpen (150 * ms) demo_breaker))
      demo_env = Some (cb', after_reads 1 demo_env) ∧
    state cb' = StateOpened ∧ failures cb' = 0 ∧ successes cb' = 0.
Proof.
  destruct (RecordFailure_HalfOpen_reopens
              (set_successes 5 (moved_to StateHalfOpen (150 * ms) demo_breaker))
              demo_env)
    as (cb' & Hrun & Hst & Hf & Hs & _).
  - reflexivity.
  - exists cb'. repeat split; assumption.
Defined.

Lemma UpdateValues_keeps_state_and_counters_witness :
  ∃ cb',
    UpdateValues (Int64Threshold_ptr (NewInt64Threshold 20))
      (Int64Threshold_ptr (NewInt64Threshold 200)) (500 * ms)
      (set_failures 1 demo_breaker) demo_env = Some (cb', demo_env) ∧
    state cb' = StateClosed ∧ failures cb' = 1 ∧ successes cb' = 0 ∧
    lastStateChange cb' = 0.
Proof.
  destruct (UpdateValues_keeps_state_and_counters
              (Int64Threshold_ptr (NewInt64Threshold 20))
              (Int64Threshold_ptr (NewInt64Threshold 200)) (500 * ms)
              (set_failures 1 demo_breaker) demo_env)
    as (cb' & Hrun & Hst & Hf & Hs & Hl & _).
  exists cb'. repeat split; assumption.
Defined.

Lemma Check_keeps_only_window_witness :
  ∃ b e' sw',
    SlidingWindowThreshold_Check 1 any_nil (after_reads 2 demo_window_env)
    = Some (b, e') ∧
    heap e' !! 1%positive = Some sw' ∧
    failureTimes sw' = [50 * ms].
Proof.
  destruct (Check_keeps_only_window (after_reads 2 demo_window_env) 1
              demo_window any_nil)
    as (b & e' & sw' & Hrun & Hp & Hkept & _).
  - reflexivity.
  - split; vm_compute; [reflexivity|discriminate].
  - exists b, e', sw'. repeat split; assumption.
Defined.

Lemma Check_unrecognized_kind_witness :
  CustomThreshold_Check (Int64Threshold_ptr (NewInt64Threshold 2))
    (any_other "string") demo_env = Some (false, demo_env) ∧
  CustomThreshold_Check (Float64Threshold_ptr (NewFloat64Threshold 0.5))
    (any_other "string") demo_env = Some (false, demo_env).
Proof.
  destruct (Check_unrecognized_kind (any_other "string") demo_env)
    as (Hint & Hfloat & _).
  split; [apply Hint|apply Hfloat]; reflexivity.
Defined.

(** * Further properties of the sliding window *)

Lemma run_window_call_run p c e sw :
  heap e !! p = Some sw →
  let now := clock e (reads e) in
  let kept := filter (λ ft, now + Int64.neg (windowSize sw) < ft)
                (failureTimes sw) in
  run_window_call p c e
  = Some (match c with
          | Window_RecordFailure => Recorded now
          | Window_Check _ =>
              Checked now
                (bool_decide (maxFailures sw ≤ Z.of_nat (length kept)))
          end,
          {| clock := clock e; reads := S (reads e);
             heap := <[p := set_failureTimes
                               match c with
                               | Window_RecordFailure =>
                                   failureTimes sw ++ [now]
                               | Window_Check _ => kept
                               end sw]> (heap e) |}).
Proof.
  intros Hp now kept. unfold run_window_call.
  erewrite bind_Some; [|reflexivity]. destruct c as [|value].
  - erewrite bind_Some; [|by apply RecordFailure_run]. done.
  - erewrite bind_Some; [|by apply Check_run]. done.
Qed.

Lemma Forall_filter_keep {A} (P Q : A → Prop) `{!∀ x, Decision (P x)} l :
  Forall Q l → Forall Q (filter P l).
Proof.
  rewrite !Forall_forall. intros Hall x Hx.
  apply list_elem_of_filter in Hx. apply Hall. tauto.
Qed.

Lemma StronglySorted_filter_le (P : Z → Prop) `{!∀ x, Decision (P x)} l :
  StronglySorted Z.le l → StronglySorted Z.le (filter P l).
Proof.
  induction 1 as [|t l _ IH Hall]; [constructor|].
  rewrite filter_cons. case_decide; [|done].
  constructor; [done|]. by apply Forall_filter_keep.
Qed.

Lemma run_window_call_chron p c e before :
  monotonic e → window_chron p e before →
  ∃ ev e', run_window_call p c e = Some (ev, e') ∧
    monotonic e' ∧ window_chron p e' (before ++ [ev]).
Proof.
  intros Hmono (sw & Hp & Hsort & Hle & Hsub).
  pose proof (Hmono (reads e) (S (reads e)) ltac:(lia)) as Hnext.
  eexists _, _. split; [by apply run_window_call_run|].
  split; [exact Hmono|].
  eexists. split; [simpl; apply lookup_insert_eq|]. simpl.
  rewrite recorded_app. destruct c as [|value]; simpl.
  - split; [|split].
    + apply StronglySorted_app. split; [|split; [done|]].
      * intros t1 t2 Ht1 Ht2. apply list_elem_of_singleton in Ht2 as ->.
        by apply (proj1 (Forall_forall _ _) Hle).
      * repeat constructor.
    + apply Forall_app. split.
      * eapply Forall_impl; [exact Hle|]. simpl. intros; lia.
      * by repeat constructor.
    + by apply sublist_app.
  - rewrite app_nil_r. split; [|split].
    + by apply StronglySorted_filter_le.
    + apply Forall_filter_keep. eapply Forall_impl; [exact Hle|].
      simpl. intros; lia.
    + etrans; [apply sublist_filter|done].
Qed.

Lemma run_window_chron p calls : ∀ e before,
  monotonic e → window_chron p e before →
  ∃ log e', run_window p calls e = Some (log, e') ∧
    window_chron p e' (before ++ log).
Proof.
  induction calls as [|c calls IH]; intros e before Hmono Hinv; simpl.
  - eexists [], e. by rewrite app_nil_r.
  - destruct (run_window_call_chron p c e before Hmono Hinv)
      as (ev & e1 & Hc & Hmono1 & Hinv1).
    destruct (IH e1 _ Hmono1 Hinv1) as (log & e2 & Hrun & Hinv2).
    erewrite bind_Some; [|exact Hc].
    erewrite bind_Some; [|exact Hrun].
    eexists _, e2. split; [reflexivity|].
    by rewrite <- app_assoc in Hinv2.
Qed.

(** X1. Whatever [RecordFailure] and [Check] calls are made on a window fresh
    from its constructor, at the readings of a monotonic clock, the run
    returns and the entries the window then holds are in chronological
    order, none later than the next reading, and form a subsequence of the
    timestamps recorded by the [RecordFailure] calls. *)
Theorem window_entries_chronological w m n calls e :
  monotonic e →
  ∃ p log e' sw,
    (p ← NewSlidingWindowThreshold w m n;
     log ← run_window p calls;
     mret (p, log)) e = Some ((p, log), e') ∧
    heap e' !! p = Some sw ∧
    StronglySorted Z.le (failureTimes sw) ∧
    Forall (λ t, t ≤ clock e' (reads e')) (failureTimes sw) ∧
    failureTimes sw `sublist_of` recorded log.
Proof.
  intros Hmono.
  set (p := fresh (dom (heap e))).
  set (sw := {| windowSize := w; maxFailures := m; name := n;
                failureTimes := [] |}).
  set (e0 := {| clock := clock e; reads := reads e;
                heap := <[p:=sw]> (heap e) |}).
  assert (window_chron p e0 []) as Hinv.
  { exists sw. split; [simpl; apply lookup_insert_eq|]. simpl.
    split; [constructor|]. split; [constructor|]. done. }
  destruct (run_window_chron p calls e0 [] Hmono Hinv)
    as (log & e' & Hrun & sw' & Hp & Hsort & Hle & Hsub).
  exists p, log, e', sw'. split; [|done].
  erewrite bind_Some; [|reflexivity].
  erewrite bind_Some; [|exact Hrun]. done.
Qed.

Lemma run_window_records p k : ∀ e sw,
  heap e !! p = Some sw →
  run_window p (replicate k Window_RecordFailure) e
  = Some (Recorded ∘ clock e <$> seq (reads e) k,
          {| clock := clock e; reads := (k + reads e)%nat;
             heap := <[p := set_failureTimes
                               (failureTimes sw
                                ++ (clock e <$> seq (reads e) k)) sw]>
                       (heap e) |}).
Proof.
  induction k as [|k IH]; intros e sw Hp; simpl.
  - unfold mret, M_ret. rewrite app_nil_r. do 2 f_equal.
    destruct e as [c r h]; simpl in *. f_equal.
    rewrite insert_id; [done|]. by destruct sw.
  - erewrite bind_Some; [|by apply run_window_call_run].
    erewrite bind_Some; [|apply IH; simpl; apply lookup_insert_eq].
    unfold mret, M_ret. simpl. do 3 f_equal.
    + lia.
    + rewrite insert_insert_eq. f_equal. unfold set_failureTimes. simpl.
      by rewrite <- app_assoc.
Qed.

(** X2. [GetCurrentFailures] counts what is stored, not what is in the window:
    after [k] calls of [RecordFailure] the window holds its old entries
    followed by the [k] readings of those calls, and [GetCurrentFailures]
    returns the old count plus [k], however far apart the readings are and
    whatever [windowSize] is; it leaves the window and the clock as they
    are. *)
Theorem GetCurrentFailures_counts_unpruned p k e sw :
  heap e !! p = Some sw →
  ∃ log e' sw',
    run_window p (replicate k Window_RecordFailure) e = Some (log, e') ∧
    heap e' !! p = Some sw' ∧
    failureTimes sw' = failureTimes sw ++ (clock e <$> seq (reads e) k) ∧
    SlidingWindowThreshold_GetCurrentFailures p e'
    = Some (Z.of_nat (length (failureTimes sw)) + Z.of_nat k, e').
Proof.
  intros Hp. eexists _, _, _.
  split; [by apply run_window_records|].
  split; [simpl; apply lookup_insert_eq|]. split; [done|].
  erewrite GetCurrentFailures_run; [|simpl; apply lookup_insert_eq].
  simpl. rewrite length_app, length_fmap, length_seq. do 2 f_equal. lia.
Qed.

(** X3. Without a [RecordFailure] in between, the answers of [Check] can only
    go from true to false: if a later [Check] on the window returns true, so
    did the earlier one, and the later one keeps no entry the earlier one
    dropped.  [n] is the number of clock readings made between the two
    calls. *)
Theorem Check_without_new_failures_decays p v v' n e sw :
  monotonic e → heap e !! p = Some sw →
  ∃ b1 e1 sw1 b2 e2 sw2,
    SlidingWindowThreshold_Check p v e = Some (b1, e1) ∧
    heap e1 !! p = Some sw1 ∧
    SlidingWindowThreshold_Check p v' (after_reads n e1) = Some (b2, e2) ∧
    heap e2 !! p = Some sw2 ∧
    (b2 = true → b1 = true) ∧
    failureTimes sw2 `sublist_of` failureTimes sw1 ∧
    failureTimes sw1 `sublist_of` failureTimes sw.
Proof.
  intros Hmono Hp.
  eexists _, _, _, _, _, _.
  split; [by apply Check_run|].
  split; [simpl; apply lookup_insert_eq|].
  split; [apply Check_run; simpl; apply lookup_insert_eq|].
  split; [simpl; apply lookup_insert_eq|]. simpl.
  split; [|split; apply sublist_filter].
  rewrite !bool_decide_eq_true. intros Hb2.
  match goal with
  | H : maxFailures sw ≤ Z.of_nat (length (filter ?P ?l)) |- _ =>
      pose proof (length_filter P l)
  end. lia.
Qed.

(** X4. On a window fresh from its constructor [Check] returns true exactly
    when [maxFailures] is zero or negative: with such a limit the threshold
    is met before any failure is recorded. *)
Theorem Check_fresh_window w m n v e :
  ∃ p e',
    (p ← NewSlidingWindowThreshold w m n;
     b ← SlidingWindowThreshold_Check p v;
     mret (p, b)) e = Some ((p, bool_decide (m ≤ 0)), e') ∧
    SlidingWindowThreshold_GetCurrentFailures p e' = Some (0, e').
Proof.
  eexists _, _. split.
  - erewrite bind_Some; [|reflexivity].
    erewrite bind_Some; [|apply Check_run; simpl; apply lookup_insert_eq].
    simpl. reflexivity.
  - erewrite GetCurrentFailures_run; [|simpl; apply lookup_insert_eq]. done.
Qed.

(** X5. A window whose [windowSize] is zero or negative never counts anything:
    [Check] drops every entry that is not later than its own clock reading,
    which is all of them on a monotonic clock, and returns whether
    [maxFailures] is zero or negative. *)
Theorem Check_nonpositive_window p v e sw :
  heap e !! p = Some sw →
  Int64.min_int < windowSize sw ≤ 0 →
  Forall (λ t, t ≤ clock e (reads e)) (failureTimes sw) →
  ∃ e' sw',
    SlidingWindowThreshold_Check p v e
    = Some (bool_decide (maxFailures sw ≤ 0), e') ∧
    heap e' !! p = Some sw' ∧ failureTimes sw' = [].
Proof.
  intros Hp Hw Hle.
  assert (filter (λ ft, clock e (reads e) + Int64.neg (windowSize sw) < ft)
            (failureTimes sw) = []) as Hnone.
  { rewrite neg_small by (unfold Int64.max_int; lia).
    induction Hle as [|t l Ht _ IH]; [done|].
    rewrite filter_cons. case_decide; [lia|done]. }
  pose proof (Check_run e p sw v Hp) as Hrun. simpl in Hrun.
  rewrite Hnone in Hrun. simpl in Hrun.
  eexists _, _. split; [exact Hrun|].
  simpl. split; [apply lookup_insert_eq|done].
Qed.

(** * Further properties of the breaker *)

Lemma Allow_agrees_with_State_aux cb e :
  ∃ cb' e',
    State cb e = Some ((state cb', cb'), e') ∧
    Allow cb e = Some ((negb (bool_decide (state cb' = StateOpened)), cb'), e').
Proof.
  destruct (decide (state cb = StateOpened)) as [Ho|Ho].
  - rewrite State_Opened, Allow_Opened by done. case_bool_decide.
    + by exists (moved_to StateHalfOpen (clock e (S (reads e))) cb),
        (after_reads 2 e).
    + exists cb, (after_reads 1 e). by rewrite Ho.
  - rewrite State_not_Opened, Allow_not_Opened by done.
    exists cb, e. by rewrite bool_decide_eq_false_2.
Qed.

(** X6. [Allow] and [State] are the same operation but for what they return:
    called on the same breaker at the same readings they both return and
    leave the same breaker, clock and heap; [State] returns the state tag of
    the breaker it leaves, and [Allow] returns whether that tag differs from
    Open. *)
Theorem Allow_agrees_with_State cb e :
  ∃ cb' e',
    State cb e = Some ((state cb', cb'), e') ∧
    Allow cb e = Some ((negb (bool_decide (state cb' = StateOpened)), cb'), e').
Proof. apply Allow_agrees_with_State_aux. Qed.

Lemma saturate_range z : Int64.in_range (Int64.saturate z).
Proof.
  unfold Int64.saturate, Int64.in_range, Int64.min_int, Int64.max_int.
  repeat case_bool_decide; lia.
Qed.

Lemma saturate_nonneg z : 0 ≤ z → 0 ≤ Int64.saturate z.
Proof.
  unfold Int64.saturate, Int64.min_int, Int64.max_int.
  repeat case_bool_decide; lia.
Qed.

(** X7. A breaker built with a negative [openedTimeout] never blocks a caller:
    once Open, the first [Allow] made at or after the stamp of the opening
    returns true and leaves the breaker HalfOpen. *)
Theorem Allow_negative_timeout cb e :
  state cb = StateOpened →
  openedTimeout cb < 0 →
  lastStateChange cb ≤ clock e (reads e) →
  Allow cb e
  = Some ((true, moved_to StateHalfOpen (clock e (S (reads e))) cb),
          after_reads 2 e).
Proof.
  intros Hst Hneg Hle. rewrite Allow_Opened by done.
  rewrite bool_decide_eq_true_2; [done|].
  unfold Time_Sub.
  pose proof (saturate_nonneg (clock e (reads e) - lastStateChange cb)).
  lia.
Qed.

(** X8. A breaker whose [openedTimeout] is the largest [Duration] never
    recovers: once Open, every [Allow] returns false and leaves it Open,
    whatever the clock reads, because [time.Since] never reports more than
    that. *)
Theorem Allow_max_timeout cb n : ∀ e,
  state cb = StateOpened →
  openedTimeout cb = Int64.max_int →
  repeat_Allow n cb e = Some ((replicate n false, cb), after_reads n e).
Proof.
  induction n as [|n IH]; intros e Hst Hmax.
  - simpl. unfold mret, M_ret, after_reads. by destruct e.
  - pose proof (Allow_Opened cb e Hst) as Hstep.
    rewrite bool_decide_eq_false_2 in Hstep.
    2:{ rewrite Hmax. unfold Time_Sub.
        pose proof (saturate_range
                      (clock e (reads e) - lastStateChange cb)) as [_ Hhi].
        lia. }
    change (repeat_Allow (S n) cb e)
      with ((r ← Allow cb; rs ← repeat_Allow n r.2;
             mret (r.1 :: rs.1, rs.2)) e).
    erewrite bind_Some; [|exact Hstep].
    erewrite bind_Some; [|by apply IH].
    unfold mret, M_ret. simpl. rewrite after_reads_after_reads.
    do 3 f_equal. lia.
Qed.

(** ** What one call can do *)

Lemma window_pruned_refl sw : window_pruned sw sw.
Proof. by repeat split. Qed.

Lemma CustomThreshold_Check_inv threshold v e b e' :
  CustomThreshold_Check threshold v e = Some (b, e') →
  clock e' = clock e ∧ (reads e ≤ reads e' ≤ S (reads e))%nat ∧
  (∀ q, threshold ≠ SlidingWindowThreshold_ptr q →
        heap e' !! q = heap e !! q) ∧
  (∀ q sw, heap e !! q = Some sw →
           ∃ sw', heap e' !! q = Some sw' ∧ window_pruned sw sw') ∧
  (∀ q, heap e !! q = None → heap e' !! q = None).
Proof.
  destruct threshold as [t|t|p]; simpl; intros Hrun.
  1,2: injection Hrun as _ <-;
       split; [done|]; split; [lia|]; split; [done|]; split; [|done];
       intros q sw Hq; exists sw; split; [done|apply window_pruned_refl].
  destruct (heap e !! p) as [sw0|] eqn:Hp.
  2:{ unfold SlidingWindowThreshold_Check in Hrun.
      rewrite bind_None in Hrun; [done|]. unfold deref. by rewrite Hp. }
  rewrite (Check_run e p sw0 v Hp) in Hrun. injection Hrun as _ <-. simpl.
  split; [done|]. split; [lia|]. split; [|split].
  - intros q Hq. apply lookup_insert_ne. congruence.
  - intros q sw Hq. destruct (decide (q = p)) as [->|Hne].
    + rewrite lookup_insert_eq. eexists. split; [done|].
      rewrite Hp in Hq. injection Hq as <-.
      repeat split. simpl. apply sublist_filter.
    + rewrite lookup_insert_ne by done. exists sw.
      split; [done|apply window_pruned_refl].
  - intros q Hq. destruct (decide (q = p)) as [->|Hne]; [congruence|].
    by rewrite lookup_insert_ne.
Qed.

Lemma Switch_Check_inv s v e b e' :
  Switch_Check s v e = Some (b, e') →
  clock e' = clock e ∧ (reads e ≤ reads e' ≤ S (reads e))%nat.
Proof.
  destruct s as [threshold]. simpl. intros Hrun.
  apply CustomThreshold_Check_inv in Hrun. tauto.
Qed.

Lemma run_call_outcome c cb e cb' e' :
  run_call c cb e = Some (cb', e') →
  cb' = cb ∨
  (c = Call_RecordSuccess ∧
   (state cb = StateClosed ∨ state cb = StateHalfOpen) ∧
   cb' = set_failures 0 (set_successes (Int64.incr (successes cb)) cb)) ∨
  (c = Call_RecordFailure ∧ state cb = StateClosed ∧
   cb' = set_successes 0 (set_failures (Int64.incr (failures cb)) cb)) ∨
  (∃ nf ns nt, c = Call_UpdateValues nf ns nt ∧
     cb' = set_openedTimeout nt
             (set_successSwitch (ChooseSwitch ns)
                (set_failureSwitch (ChooseSwitch nf)
                   (set_successThreshold ns (set_failureThreshold nf cb))))) ∨
  (∃ to i, arrow c (state cb) to ∧ (reads e ≤ i < reads e')%nat ∧
     cb' = moved_to to (clock e i) cb).
Proof.
  intros Hrun.
  destruct c as [| | | |nf ns nt|w m n|p wc]; simpl in Hrun.
  - apply bind_inv in Hrun as (r & e1 & Hrun & [= <- <-]).
    destruct (decide (state cb = StateOpened)) as [Ho|Ho].
    + rewrite Allow_Opened in Hrun by done.
      case_bool_decide; injection Hrun as <- <-; [|by left].
      do 4 right. exists StateHalfOpen, (S (reads e)).
      split; [|split; [simpl; lia|done]].
      do 3 right. by split; [left|].
    + rewrite Allow_not_Opened in Hrun by done.
      injection Hrun as <- <-. by left.
  - apply bind_inv in Hrun as (r & e1 & Hrun & [= <- <-]).
    destruct (decide (state cb = StateOpened)) as [Ho|Ho].
    + rewrite State_Opened in Hrun by done.
      case_bool_decide; injection Hrun as <- <-; [|by left].
      do 4 right. exists StateHalfOpen, (S (reads e)).
      split; [|split; [simpl; lia|done]].
      do 3 right. by split; [right|].
    + rewrite State_not_Opened in Hrun by done.
      injection Hrun as <- <-. by left.
  - destruct (decide (state cb = StateClosed)) as [Hc|Hc].
    { rewrite RecordSuccess_Closed in Hrun by done.
      injection Hrun as <- <-. right; left. by split; [|split; [left|]]. }
    destruct (decide (state cb = StateHalfOpen)) as [Hh|Hh].
    + rewrite RecordSuccess_HalfOpen in Hrun by done. simpl in Hrun.
      apply bind_inv in Hrun as ([] & e1 & Hsw & Hrun).
      * apply bind_inv in Hrun as (now & e2 & Hnow & [= <- <-]).
        apply time_Now_inv in Hnow as [-> ->].
        apply Switch_Check_inv in Hsw as [Hclock Hreads].
        do 4 right. exists StateClosed, (reads e1).
        split; [|split; [simpl; lia|by rewrite Hclock]].
        do 2 right; left. done.
      * injection Hrun as <- <-. right; left.
        by split; [|split; [right|]].
    + unfold RecordSuccess in Hrun.
      rewrite !bool_decide_eq_false_2 in Hrun by done.
      left. by case_bool_decide; injection Hrun as <- <-.
  - destruct (decide (state cb = StateClosed)) as [Hc|Hc].
    { rewrite RecordFailure_Closed in Hrun by done. simpl in Hrun.
      apply bind_inv in Hrun as ([] & e1 & Hsw & Hrun).
      - apply bind_inv in Hrun as (now & e2 & Hnow & [= <- <-]).
        apply time_Now_inv in Hnow as [-> ->].
        apply Switch_Check_inv in Hsw as [Hclock Hreads].
        do 4 right. exists StateOpened, (reads e1).
        split; [|split; [simpl; lia|by rewrite Hclock]].
        left. done.
      - injection Hrun as <- <-. do 2 right; left. done. }
    destruct (decide (state cb = StateHalfOpen)) as [Hh|Hh].
    + rewrite RecordFailure_HalfOpen in Hrun by done.
      injection Hrun as <- <-.
      do 4 right. exists StateOpened, (reads e).
      split; [|split; [simpl; lia|done]].
      right; left. done.
    + unfold RecordFailure in Hrun.
      rewrite !bool_decide_eq_false_2 in Hrun by done.
      left. by case_bool_decide; injection Hrun as <- <-.
  - injection Hrun as <- <-. do 3 right; left. by exists nf, ns, nt.
  - apply bind_inv in Hrun as (r & e1 & _ & [= <- <-]). by left.
  - apply bind_inv in Hrun as (r & e1 & _ & [= <- <-]). by left.
Qed.

(** X9. One call moves the state only along an arrow of the diagram: Closed to
    Open and HalfOpen to Open by [RecordFailure], HalfOpen to Closed by
    [RecordSuccess], Open to HalfOpen by [Allow] or [State].  If the state
    tag is the same after the call, so is [lastStateChange]; if not, both
    counters are 0 and [lastStateChange] is a clock reading made during the
    call. *)
Theorem state_moves_along_arrows c cb e cb' e' :
  run_call c cb e = Some (cb', e') →
  (state cb' = state cb ∧ lastStateChange cb' = lastStateChange cb) ∨
  (arrow c (state cb) (state cb') ∧ state cb' ≠ state cb ∧
   failures cb' = 0 ∧ successes cb' = 0 ∧
   ∃ i, (reads e ≤ i < reads e')%nat ∧ lastStateChange cb' = clock e i).
Proof.
  intros Hrun.
  apply run_call_outcome in Hrun
    as [->|[(_ & _ & ->)|[(_ & _ & ->)|[(nf & ns & nt & _ & ->)
       |(to & i & Harrow & Hi & ->)]]]]; try (by left).
  right. simpl. split; [done|]. split; [|by eauto].
  destruct Harrow as [(_ & -> & ->)|[(_ & -> & ->)|[(_ & -> & ->)
                     |(_ & -> & ->)]]]; done.
Qed.

(** X10. Only [UpdateValues] changes the configuration: after any other call the
    breaker has the thresholds, the switches and the timeout it had. *)
Theorem only_UpdateValues_reconfigures c cb e cb' e' :
  run_call c cb e = Some (cb', e') →
  (∀ nf ns nt, c ≠ Call_UpdateValues nf ns nt) →
  same_config cb cb'.
Proof.
  intros Hrun Hc.
  apply run_call_outcome in Hrun
    as [->|[(_ & _ & ->)|[(_ & _ & ->)|[(nf & ns & nt & -> & _)
       |(to & i & _ & _ & ->)]]]]; try (by repeat split).
  by destruct (Hc nf ns nt).
Qed.

(** ** What the breaker does to the heap and the clock *)

Lemma Switch_Check_env threshold v e b e' :
  Switch_Check (ChooseSwitch threshold) v e = Some (b, e') →
  clock e' = clock e ∧ (reads e ≤ reads e' ≤ S (reads e))%nat ∧
  (∀ q, threshold ≠ SlidingWindowThreshold_ptr q →
        heap e' !! q = heap e !! q) ∧
  (∀ q sw, heap e !! q = Some sw →
           ∃ sw', heap e' !! q = Some sw' ∧ window_pruned sw sw') ∧
  (∀ q, heap e !! q = None → heap e' !! q = None).
Proof. apply CustomThreshold_Check_inv. Qed.

Lemma run_call_method_env c cb e cb' e' :
  is_breaker_method c → switches_chosen cb →
  run_call c cb e = Some (cb', e') →
  clock e' = clock e ∧ (reads e ≤ reads e' ≤ 2 + reads e)%nat ∧
  (∀ q, failureThreshold cb ≠ SlidingWindowThreshold_ptr q →
        successThreshold cb ≠ SlidingWindowThreshold_ptr q →
        heap e' !! q = heap e !! q) ∧
  (∀ q sw, heap e !! q = Some sw →
           ∃ sw', heap e' !! q = Some sw' ∧ window_pruned sw sw') ∧
  (∀ q, heap e !! q = None → heap e' !! q = None).
Proof.
  intros Hc [Hfsw Hssw] Hrun.
  assert (∀ k, (k ≤ 2)%nat → e' = after_reads k e →
            clock e' = clock e ∧ (reads e ≤ reads e' ≤ 2 + reads e)%nat ∧
            (∀ q, failureThreshold cb ≠ SlidingWindowThreshold_ptr q →
                  successThreshold cb ≠ SlidingWindowThreshold_ptr q →
                  heap e' !! q = heap e !! q) ∧
            (∀ q sw, heap e !! q = Some sw →
                     ∃ sw', heap e' !! q = Some sw' ∧ window_pruned sw sw') ∧
            (∀ q, heap e !! q = None → heap e' !! q = None)) as Hticks.
  { intros k Hk ->. simpl. split; [done|]. split; [lia|]. split; [done|].
    split; [|done]. intros q sw Hq. exists sw.
    split; [done|apply window_pruned_refl]. }
  assert (e = after_reads 0 e) as He0 by (by destruct e).
  destruct c as [| | | |nf ns nt|w m n|p wc]; simpl in Hrun; try done.
  - apply bind_inv in Hrun as (r & e1 & Hrun & [= <- <-]).
    destruct (decide (state cb = StateOpened)) as [Ho|Ho].
    + rewrite Allow_Opened in Hrun by done.
      case_bool_decide; injection Hrun as <- <-;
        [apply (Hticks 2%nat)|apply (Hticks 1%nat)]; (lia || done).
    + rewrite Allow_not_Opened in Hrun by done.
      injection Hrun as <- <-. by apply (Hticks 0%nat); [lia|].
  - apply bind_inv in Hrun as (r & e1 & Hrun & [= <- <-]).
    destruct (decide (state cb = StateOpened)) as [Ho|Ho].
    + rewrite State_Opened in Hrun by done.
      case_bool_decide; injection Hrun as <- <-;
        [apply (Hticks 2%nat)|apply (Hticks 1%nat)]; (lia || done).
    + rewrite State_not_Opened in Hrun by done.
      injection Hrun as <- <-. by apply (Hticks 0%nat); [lia|].
  - destruct (decide (state cb = StateClosed)) as [Hcl|Hcl].
    { rewrite RecordSuccess_Closed in Hrun by done.
      injection Hrun as <- <-. by apply (Hticks 0%nat); [lia|]. }
    destruct (decide (state cb = StateHalfOpen)) as [Hh|Hh].
    + rewrite RecordSuccess_HalfOpen in Hrun by done. simpl in Hrun.
      rewrite Hssw in Hrun.
      apply bind_inv in Hrun as (b & e1 & Hsw & Hrun).
      apply Switch_Check_env in Hsw as (Hclock & Hreads & Hframe & Hpr & Hno).
      assert (clock e' = clock e1 ∧ (reads e1 ≤ reads e' ≤ S (reads e1))%nat
              ∧ heap e' = heap e1) as (Hclock' & Hreads' & Hheap').
      { destruct b.
        - apply bind_inv in Hrun as (now & e2 & Hnow & [= <- <-]).
          apply time_Now_inv in Hnow as [-> ->]. simpl.
          split; [done|]. split; [lia|done].
        - injection Hrun as <- <-. split; [done|]. split; [lia|done]. }
      rewrite Hclock', Hheap'. split; [done|]. split; [lia|].
      split; [|done]. intros q _ Hq. by apply Hframe.
    + unfold RecordSuccess in Hrun.
      rewrite !bool_decide_eq_false_2 in Hrun by done.
      assert (e' = e) as -> by (by case_bool_decide; injection Hrun as <- <-).
      by apply (Hticks 0%nat); [lia|].
  - destruct (decide (state cb = StateClosed)) as [Hcl|Hcl].
    { rewrite RecordFailure_Closed in Hrun by done. simpl in Hrun.
      rewrite Hfsw in Hrun.
      apply bind_inv in Hrun as (b & e1 & Hsw & Hrun).
      apply Switch_Check_env in Hsw as (Hclock & Hreads & Hframe & Hpr & Hno).
      assert (clock e' = clock e1 ∧ (reads e1 ≤ reads e' ≤ S (reads e1))%nat
              ∧ heap e' = heap e1) as (Hclock' & Hreads' & Hheap').
      { destruct b.
        - apply bind_inv in Hrun as (now & e2 & Hnow & [= <- <-]).
          apply time_Now_inv in Hnow as [-> ->]. simpl.
          split; [done|]. split; [lia|done].
        - injection Hrun as <- <-. split; [done|]. split; [lia|done]. }
      rewrite Hclock', Hheap'. split; [done|]. split; [lia|].
      split; [|done]. intros q Hq _. by apply Hframe. }
    destruct (decide (state cb = StateHalfOpen)) as [Hh|Hh].
    + rewrite RecordFailure_HalfOpen in Hrun by done.
      injection Hrun as <- <-. by apply (Hticks 1%nat); [lia|].
    + unfold RecordFailure in Hrun.
      rewrite !bool_decide_eq_false_2 in Hrun by done.
      assert (e' = e) as -> by (by case_bool_decide; injection Hrun as <- <-).
      by apply (Hticks 0%nat); [lia|].
  - injection Hrun as <- <-. by apply (Hticks 0%nat); [lia|].
Qed.

(** X11. The methods of a breaker never record a failure on a sliding window and
    never create or drop one: after a call of [Allow], [State],
    [RecordSuccess], [RecordFailure] or [UpdateValues] on a breaker built by
    the package, every window of the heap has the configuration it had and
    a subsequence of the entries it had, a window that is neither of the two
    thresholds of the breaker is untouched, and the clock has been read at
    most twice. *)
Theorem breaker_methods_only_prune ft st to calls e0 cb e c cb' e' :
  breaker_run ft st to calls e0 = Some (cb, e) →
  is_breaker_method c →
  run_call c cb e = Some (cb', e') →
  clock e' = clock e ∧ (reads e ≤ reads e' ≤ 2 + reads e)%nat ∧
  (∀ q, failureThreshold cb ≠ SlidingWindowThreshold_ptr q →
        successThreshold cb ≠ SlidingWindowThreshold_ptr q →
        heap e' !! q = heap e !! q) ∧
  (∀ q sw, heap e !! q = Some sw →
           ∃ sw', heap e' !! q = Some sw' ∧ window_pruned sw sw') ∧
  (∀ q, heap e !! q = None → heap e' !! q = None).
Proof.
  intros Hrun Hc Hcall.
  destruct (breaker_run_inv _ _ _ _ _ _ _ Hrun) as (_ & _ & _ & Hf & Hs).
  by apply (run_call_method_env c cb e cb' e').
Qed.

(** ** The counters *)

Lemma run_call_counters c cb e cb' e' (nF nS : Z) :
  run_call c cb e = Some (cb', e') →
  0 ≤ failures cb ≤ nF → 0 ≤ successes cb ≤ nS →
  nF + Z.of_nat (count_RecordFailure [c]) ≤ Int64.max_int →
  nS + Z.of_nat (count_RecordSuccess [c]) ≤ Int64.max_int →
  0 ≤ failures cb' ≤ nF + Z.of_nat (count_RecordFailure [c]) ∧
  0 ≤ successes cb' ≤ nS + Z.of_nat (count_RecordSuccess [c]).
Proof.
  intros Hrun HF HS HnF HnS.
  apply run_call_outcome in Hrun
    as [->|[(-> & _ & ->)|[(-> & _ & ->)|[(nf & ns & nt & -> & ->)
       |(to & i & _ & _ & ->)]]]]; simpl in *; try lia.
  - rewrite incr_small by (unfold Int64.min_int, Int64.max_int in *; lia).
    lia.
  - rewrite incr_small by (unfold Int64.min_int, Int64.max_int in *; lia).
    lia.
Qed.

Lemma count_RecordFailure_cons c calls :
  count_RecordFailure (c :: calls)
  = (count_RecordFailure [c] + count_RecordFailure calls)%nat.
Proof. by destruct c. Qed.

Lemma count_RecordSuccess_cons c calls :
  count_RecordSuccess (c :: calls)
  = (count_RecordSuccess [c] + count_RecordSuccess calls)%nat.
Proof. by destruct c. Qed.

Lemma run_calls_counters calls : ∀ cb e cb' e' (nF nS : Z),
  run_calls calls cb e = Some (cb', e') →
  0 ≤ failures cb ≤ nF → 0 ≤ successes cb ≤ nS →
  nF + Z.of_nat (count_RecordFailure calls) ≤ Int64.max_int →
  nS + Z.of_nat (count_RecordSuccess calls) ≤ Int64.max_int →
  0 ≤ failures cb' ≤ nF + Z.of_nat (count_RecordFailure calls) ∧
  0 ≤ successes cb' ≤ nS + Z.of_nat (count_RecordSuccess calls).
Proof.
  induction calls as [|c calls IH]; intros cb e cb' e' nF nS Hrun HF HS HnF HnS.
  - injection Hrun as <- <-. simpl. lia.
  - simpl in Hrun. apply bind_inv in Hrun as (cb1 & e1 & Hc & Hrun).
    rewrite count_RecordFailure_cons, count_RecordSuccess_cons in *.
    destruct (run_call_counters c cb e cb1 e1 nF nS Hc HF HS) as [HF1 HS1];
      [lia..|].
    destruct (IH cb1 e1 cb' e' _ _ Hrun HF1 HS1) as [HF' HS']; lia.
Qed.

Lemma count_RecordFailure_length calls :
  (count_RecordFailure calls ≤ length calls)%nat.
Proof.
  induction calls as [|c calls IH]; [done|].
  rewrite count_RecordFailure_cons. destruct c; simpl in *; lia.
Qed.

Lemma count_RecordSuccess_length calls :
  (count_RecordSuccess calls ≤ length calls)%nat.
Proof.
  induction calls as [|c calls IH]; [done|].
  rewrite count_RecordSuccess_cons. destruct c; simpl in *; lia.
Qed.

(** X13. As long as fewer than 2^63 calls have been made since the construction,
    the counters are never negative: [failures] lies between 0 and the
    number of [RecordFailure] calls made, [successes] between 0 and the
    number of [RecordSuccess] calls made. *)
Theorem counters_bounded_by_calls ft st to calls e cb e' :
  breaker_run ft st to calls e = Some (cb, e') →
  Z.of_nat (length calls) ≤ Int64.max_int →
  0 ≤ failures cb ≤ Z.of_nat (count_RecordFailure calls) ∧
  0 ≤ successes cb ≤ Z.of_nat (count_RecordSuccess calls).
Proof.
  unfold breaker_run. intros Hrun Hlen.
  apply bind_inv in Hrun as (cb0 & e0 & Hnew & Hrun).
  unfold NewCircuitBreaker in Hnew.
  apply bind_inv in Hnew as (now & e1 & _ & [= <- <-]).
  pose proof (count_RecordFailure_length calls).
  pose proof (count_RecordSuccess_length calls).
  apply (run_calls_counters calls _ _ _ _ 0 0) in Hrun; simpl; lia.
Qed.

(** ** Streaks, cycles and thresholds other than counts *)

Lemma repeat_call_snoc k method : ∀ cb e,
  repeat_call (S k) method cb e
  = (cb ← repeat_call k method cb; method cb) e.
Proof.
  induction k as [|k IH]; intros cb e.
  - simpl. unfold mbind, M_bind, mret, M_ret.
    by destruct (method cb e) as [[cb1 e1]|].
  - change (repeat_call (S (S k)) method cb e)
      with (match method cb e with
            | Some (cb1, e1) => repeat_call (S k) method cb1 e1
            | None => None
            end).
    cbv [mbind M_bind].
    change (repeat_call (S k) method cb e)
      with (match method cb e with
            | Some (cb1, e1) => repeat_call k method cb1 e1
            | None => None
            end).
    destruct (method cb e) as [[cb1 e1]|]; [|done]. exact (IH cb1 e1).
Qed.

Lemma moved_to_same_config st now cb cb' :
  same_config cb cb' → moved_to st now cb' = moved_to st now cb.
Proof.
  intros (Hft & Hst & Hfs & Hss & Hto). unfold moved_to. congruence.
Qed.

Lemma RecordFailure_run_to_limit N cb e :
  state cb = StateClosed → counts_failures N cb →
  Int64.in_range N → 1 ≤ N → failures cb = 0 →
  repeat_call (Z.to_nat N) RecordFailure cb e
  = Some (moved_to StateOpened (clock e (reads e)) cb, after_reads 1 e).
Proof.
  intros Hst Hcnt HN H1 Hf0.
  replace (Z.to_nat N) with (S (Z.to_nat (N - 1))) by lia.
  rewrite repeat_call_snoc.
  destruct (RecordFailure_below_limit N e (Z.to_nat (N - 1)) cb)
    as (cb_k & Hrun & Hst_k & Hf_k & _ & Hcfg & _);
    try (done || unfold Int64.min_int; lia).
  erewrite bind_Some; [|exact Hrun].
  assert (counts_failures N cb_k) as Hcnt_k.
  { destruct Hcnt as [Hth Hsw], Hcfg as (Hth' & _ & Hsw' & _).
    split; congruence. }
  rewrite (RecordFailure_Closed_count N cb_k e Hst_k Hcnt_k).
  rewrite incr_small by (unfold Int64.in_range, Int64.min_int in *; lia).
  rewrite bool_decide_eq_true_2 by lia.
  by rewrite (moved_to_same_config _ _ cb cb_k Hcfg).
Qed.

Lemma RecordSuccess_run_to_limit N cb e :
  state cb = StateHalfOpen → counts_successes N cb →
  Int64.in_range N → 1 ≤ N → successes cb = 0 →
  repeat_call (Z.to_nat N) RecordSuccess cb e
  = Some (moved_to StateClosed (clock e (reads e)) cb, after_reads 1 e).
Proof.
  intros Hst Hcnt HN H1 Hf0.
  replace (Z.to_nat N) with (S (Z.to_nat (N - 1))) by lia.
  rewrite repeat_call_snoc.
  destruct (RecordSuccess_below_limit N e (Z.to_nat (N - 1)) cb)
    as (cb_k & Hrun & Hst_k & Hf_k & _ & Hcfg & _);
    try (done || unfold Int64.min_int; lia).
  erewrite bind_Some; [|exact Hrun].
  assert (counts_successes N cb_k) as Hcnt_k.
  { destruct Hcnt as [Hth Hsw], Hcfg as (_ & Hth' & _ & Hsw' & _).
    split; congruence. }
  rewrite (RecordSuccess_HalfOpen_count N cb_k e Hst_k Hcnt_k).
  rewrite incr_small by (unfold Int64.in_range, Int64.min_int in *; lia).
  rewrite bool_decide_eq_true_2 by lia.
  by rewrite (moved_to_same_config _ _ cb cb_k Hcfg).
Qed.

(** X14. One success wipes the failure streak of a Closed breaker: whatever the
    failure count was, after a [RecordSuccess] the breaker, with an integer
    failure limit [N] of at least 1, stays Closed through any number of
    failures below [N], and it takes [N] failures in a row to open it. *)
Theorem RecordSuccess_resets_failure_streak N cb e :
  state cb = StateClosed → counts_failures N cb →
  Int64.in_range N → 1 ≤ N →
  ∃ cb1,
    RecordSuccess cb e = Some (cb1, e) ∧
    state cb1 = StateClosed ∧ failures cb1 = 0 ∧
    (∀ k, Z.of_nat k < N →
       ∃ cb_k, repeat_call k RecordFailure cb1 e = Some (cb_k, e) ∧
               state cb_k = StateClosed ∧ failures cb_k = Z.of_nat k) ∧
    ∃ cb', repeat_call (Z.to_nat N) RecordFailure cb1 e
           = Some (cb', after_reads 1 e) ∧
           state cb' = StateOpened.
Proof.
  intros Hst Hcnt HN H1.
  eexists. split; [by apply RecordSuccess_Closed|].
  split; [done|]. split; [done|].
  assert (counts_failures N
            (set_failures 0 (set_successes (Int64.incr (successes cb)) cb)))
    as Hcnt1 by exact Hcnt.
  split.
  - intros k Hk.
    destruct (RecordFailure_below_limit N e k
                (set_failures 0
                   (set_successes (Int64.incr (successes cb)) cb)))
      as (cb_k & Hrun & Hst_k & Hf_k & _); simpl;
      try (done || unfold Int64.min_int; lia).
    exists cb_k. simpl in Hf_k. repeat split; (done || lia).
  - eexists. split; [by apply RecordFailure_run_to_limit|done].
Qed.

(** X15. The whole cycle.  A Closed breaker with no failure pending, an integer
    failure limit [N] and an integer success limit [M], both at least 1: [N]
    failures open it, the [Allow] that follows, made after the cooldown,
    returns true and makes it HalfOpen, and [M] successes close it again,
    with both counters 0, the configuration it had, and [lastStateChange]
    the reading of the last success. *)
Theorem failure_cooldown_recovery_cycle N M cb e :
  state cb = StateClosed → failures cb = 0 →
  counts_failures N cb → counts_successes M cb →
  Int64.in_range N → 1 ≤ N → Int64.in_range M → 1 ≤ M →
  openedTimeout cb < Time_Sub (clock e (1 + reads e)) (clock e (reads e)) →
  (cb ← repeat_call (Z.to_nat N) RecordFailure cb;
   r ← Allow cb;
   cb ← repeat_call (Z.to_nat M) RecordSuccess r.2;
   mret (r.1, cb)) e
  = Some ((true, moved_to StateClosed (clock e (3 + reads e)) cb),
          after_reads 4 e).
Proof.
  intros Hst Hf0 HcF HcS HN HN1 HM HM1 Hcool.
  erewrite bind_Some; [|by apply RecordFailure_run_to_limit].
  pose proof (Allow_Opened (moved_to StateOpened (clock e (reads e)) cb)
                (after_reads 1 e) eq_refl) as Hallow.
  rewrite bool_decide_eq_true_2 in Hallow by exact Hcool.
  erewrite bind_Some; [|exact Hallow].
  erewrite bind_Some; [|by apply RecordSuccess_run_to_limit].
  done.
Qed.

Lemma RecordFailure_Closed_window cb e p sw :
  state cb = StateClosed →
  failureThreshold cb = SlidingWindowThreshold_ptr p →
  failureSwitch cb = ChooseSwitch (failureThreshold cb) →
  heap e !! p = Some sw →
  let kept := filter (λ ft, clock e (reads e) + Int64.neg (windowSize sw) < ft)
                (failureTimes sw) in
  let h' := <[p := set_failureTimes kept sw]> (heap e) in
  RecordFailure cb e
  = if bool_decide (maxFailures sw ≤ Z.of_nat (length kept))
    then Some (moved_to StateOpened (clock e (S (reads e))) cb,
               {| clock := clock e; reads := 2 + reads e; heap := h' |})
    else Some (set_successes 0 (set_failures (Int64.incr (failures cb)) cb),
               {| clock := clock e; reads := 1 + reads e; heap := h' |}).
Proof.
  intros Hst Hth Hsw Hp kept h'.
  rewrite RecordFailure_Closed by done. rewrite Hsw, Hth. simpl.
  erewrite bind_Some; [|by apply Check_run].
  fold kept. by case_bool_decide.
Qed.

(** X16. With a sliding window as failure threshold, the failure counter of the
    breaker plays no part: [RecordFailure] on a Closed breaker prunes the
    window as [Check] does and opens the breaker exactly when the entries
    kept are at least [maxFailures]; the window gains no entry from the
    call. *)
Theorem RecordFailure_with_window_threshold cb e p sw :
  state cb = StateClosed →
  failureThreshold cb = SlidingWindowThreshold_ptr p →
  failureSwitch cb = ChooseSwitch (failureThreshold cb) →
  heap e !! p = Some sw →
  let kept := filter (λ ft, clock e (reads e) + Int64.neg (windowSize sw) < ft)
                (failureTimes sw) in
  let h' := <[p := set_failureTimes kept sw]> (heap e) in
  RecordFailure cb e
  = if bool_decide (maxFailures sw ≤ Z.of_nat (length kept))
    then Some (moved_to StateOpened (clock e (S (reads e))) cb,
               {| clock := clock e; reads := 2 + reads e; heap := h' |})
    else Some (set_successes 0 (set_failures (Int64.incr (failures cb)) cb),
               {| clock := clock e; reads := 1 + reads e; heap := h' |}).
Proof. apply RecordFailure_Closed_window. Qed.

(** X17. The breaker does not feed the window: while nobody calls
    [RecordFailure] on the window itself, a Closed breaker whose failure
    threshold is an empty window with a positive [maxFailures] stays Closed
    through any number of its own [RecordFailure] calls. *)
Theorem RecordFailure_never_fills_window cb p sw k : ∀ e,
  state cb = StateClosed →
  failureThreshold cb = SlidingWindowThreshold_ptr p →
  failureSwitch cb = ChooseSwitch (failureThreshold cb) →
  heap e !! p = Some sw → failureTimes sw = [] → 0 < maxFailures sw →
  ∃ cb_k,
    repeat_call k RecordFailure cb e = Some (cb_k, after_reads k e) ∧
    state cb_k = StateClosed ∧
    lastStateChange cb_k = lastStateChange cb ∧ same_config cb cb_k.
Proof.
  revert cb. induction k as [|k IH]; intros cb e Hst Hth Hsw Hp Hfts Hmax.
  - exists cb. split; [|by repeat split].
    simpl. unfold mret, M_ret, after_reads. by destruct e.
  - pose proof (RecordFailure_Closed_window cb e p sw Hst Hth Hsw Hp)
      as Hstep. simpl in Hstep. rewrite Hfts in Hstep. simpl in Hstep.
    rewrite bool_decide_eq_false_2 in Hstep by lia.
    rewrite filter_nil, insert_id in Hstep.
    2:{ rewrite Hp. f_equal. destruct sw; simpl in *. by subst. }
    destruct (IH (set_successes 0 (set_failures (Int64.incr (failures cb)) cb))
                (after_reads 1 e)) as (cb_k & Hrun & Hst_k & Hl_k & Hcfg);
      try done.
    exists cb_k. split; [|split; [done|split; [done|]]].
    + change (repeat_call (S k) RecordFailure cb e)
        with ((cb ← RecordFailure cb; repeat_call k RecordFailure cb) e).
      erewrite bind_Some; [|exact Hstep]. etrans; [exact Hrun|].
      rewrite after_reads_after_reads. do 3 f_equal. lia.
    + destruct Hcfg as (? & ? & ? & ? & ?). by repeat split.
Qed.

(** ** Ratio thresholds *)

Lemma Float64Threshold_Check_nan v :
  Float64Threshold_Check (NewFloat64Threshold nan) v = false.
Proof.
  destruct v; simpl; try done; rewrite leb_spec;
    change (Prim2SF nan) with S754_nan; done.
Qed.

(** X18. A ratio threshold whose limit is NaN is never met: [Check] returns false
    on every value, and a Closed breaker with such a failure threshold stays
    Closed through any number of [RecordFailure] calls. *)
Theorem NaN_threshold_never_trips cb k : ∀ e,
  state cb = StateClosed →
  failureThreshold cb = Float64Threshold_ptr (NewFloat64Threshold nan) →
  failureSwitch cb = ChooseSwitch (failureThreshold cb) →
  (∀ v, Float64Threshold_Check (NewFloat64Threshold nan) v = false) ∧
  ∃ cb_k,
    repeat_call k RecordFailure cb e = Some (cb_k, e) ∧
    state cb_k = StateClosed ∧
    lastStateChange cb_k = lastStateChange cb ∧ same_config cb cb_k.
Proof.
  intros e Hst Hth Hsw. split; [apply Float64Threshold_Check_nan|].
  revert cb Hst Hth Hsw.
  induction k as [|k IH]; intros cb Hst Hth Hsw.
  - exists cb. by repeat split.
  - assert (RecordFailure cb e
            = Some (set_successes 0
                      (set_failures (Int64.incr (failures cb)) cb), e))
      as Hstep.
    { rewrite RecordFailure_Closed by done. rewrite Hsw, Hth. simpl.
      unfold mbind, M_bind, mret, M_ret.
      by rewrite Float64Threshold_Check_nan. }
    destruct (IH (set_successes 0 (set_failures (Int64.incr (failures cb)) cb)))
      as (cb_k & Hrun & Hst_k & Hl_k & Hcfg); try done.
    exists cb_k. split; [|split; [done|split; [done|]]].
    + change (repeat_call (S k) RecordFailure cb e)
        with ((cb ← RecordFailure cb; repeat_call k RecordFailure cb) e).
      by erewrite bind_Some; [|exact Hstep].
    + destruct Hcfg as (? & ? & ? & ? & ?). by repeat split.
Qed.

(** X19. A ratio failure threshold sees the ratio 1 at the first failure that
    follows a success or a reset, because recording the failure zeroes
    [successes]: a Closed breaker with no failure pending opens on that
    failure exactly when the limit is at most 1. *)
Theorem first_failure_with_ratio_threshold t cb e :
  state cb = StateClosed → failures cb = 0 →
  failureThreshold cb = Float64Threshold_ptr t →
  failureSwitch cb = ChooseSwitch (failureThreshold cb) →
  RecordFailure cb e
  = if PrimFloat.leb (Float64Threshold_threshold t) 1
    then Some (moved_to StateOpened (clock e (reads e)) cb, after_reads 1 e)
    else Some (set_successes 0 (set_failures 1 cb), e).
Proof.
  intros Hst Hf Hth Hsw.
  rewrite RecordFailure_Closed by done. rewrite Hsw, Hth, Hf. simpl.
  unfold mbind, M_bind, mret, M_ret. simpl.
  change (PrimFloat.div (float64_of_int (Int64.incr 0))
            (float64_of_int (Int64.add 0 (Int64.incr 0)))) with 1%float.
  by destruct (PrimFloat.leb (Float64Threshold_threshold t) 1).
Qed.

(** ** A window as failure threshold, fed by the caller *)

Lemma filter_all (P : Z → Prop) `{!∀ x, Decision (P x)} l :
  Forall P l → filter P l = l.
Proof.
  induction 1 as [|t l Ht _ IH]; [done|].
  rewrite filter_cons. case_decide; [by rewrite IH|done].
Qed.

Lemma record_on_both_step p e0 w m j cb e :
  monotonic e0 →
  Int64.min_int < w ≤ Int64.max_int →
  clock e0 (1 + 2 * j + reads e0) - w < clock e0 (reads e0) →
  both_inv p e0 w m j cb e →
  ∃ cb' e',
    record_on_both p cb e = Some (cb', e') ∧
    if bool_decide (m ≤ Z.of_nat (S j))
    then cb' = moved_to StateOpened (clock e0 (2 + 2 * j + reads e0)) cb
    else both_inv p e0 w m (S j) cb' e'.
Proof.
  intros Hmono Hw Hwin (Hclock & Hreads & Hst & Hth & Hsw & sw & Hp & Hws
                        & Hms & Hlen & Hall).
  unfold record_on_both.
  erewrite bind_Some; [|by apply RecordFailure_run].
  set (sw1 := set_failureTimes (failureTimes sw ++ [clock e (reads e)]) sw).
  set (e1 := {| clock := clock e; reads := S (reads e);
                heap := <[p:=sw1]> (heap e) |}).
  assert (heap e1 !! p = Some sw1) as Hp1 by apply lookup_insert_eq.
  pose proof (RecordFailure_Closed_window cb e1 p sw1 Hst Hth Hsw Hp1)
    as Hstep. simpl in Hstep.
  assert (Forall (λ t, clock e0 (reads e0) ≤ t)
            (failureTimes sw ++ [clock e (reads e)])) as Hall1.
  { apply Forall_app. split; [done|]. repeat constructor.
    rewrite Hclock, Hreads. apply Hmono. lia. }
  rewrite filter_all in Hstep.
  2:{ eapply Forall_impl; [exact Hall1|]. simpl. intros t Ht.
      rewrite Hws, (neg_small _ Hw), Hclock, Hreads.
      replace (S (2 * j + reads e0)) with (1 + 2 * j + reads e0)%nat by lia.
      lia. }
  rewrite length_app, Hlen, Hms in Hstep. simpl in Hstep.
  replace (j + 1)%nat with (S j) in Hstep by lia.
  case_bool_decide; (eexists _, _; split; [exact Hstep|]).
  - rewrite Hclock, Hreads. f_equal.
  - split; [done|]. split; [simpl; lia|]. do 3 (split; [done|]).
    exists sw1. split; [simpl; by rewrite insert_insert_eq, lookup_insert_eq|].
    split; [done|]. split; [done|]. simpl.
    split; [rewrite length_app, Hlen; simpl; lia|done].
Qed.

Lemma record_on_both_below p e0 w m k : ∀ j cb e,
  monotonic e0 →
  Int64.min_int < w ≤ Int64.max_int →
  clock e0 (2 * (j + k) + reads e0 - 1) - w < clock e0 (reads e0) →
  Z.of_nat (j + k) < m →
  both_inv p e0 w m j cb e →
  ∃ cb_k e_k,
    repeat_call k (record_on_both p) cb e = Some (cb_k, e_k) ∧
    both_inv p e0 w m (j + k) cb_k e_k.
Proof.
  induction k as [|k IH]; intros j cb e Hmono Hw Hwin Hlt Hinv.
  - exists cb, e. split; [done|]. by rewrite Nat.add_0_r.
  - destruct (record_on_both_step p e0 w m j cb e Hmono Hw) as
      (cb1 & e1 & Hstep & Hnext); [|done|].
    { pose proof (Hmono (1 + 2 * j + reads e0)%nat
                    (2 * (j + S k) + reads e0 - 1)%nat ltac:(lia)). lia. }
    rewrite bool_decide_eq_false_2 in Hnext by lia.
    destruct (IH (S j) cb1 e1 Hmono Hw) as (cb_k & e_k & Hrun & Hinv_k);
      [| |done|].
    { by replace (S j + k)%nat with (j + S k)%nat by lia. }
    { lia. }
    exists cb_k, e_k. split.
    + change (repeat_call (S k) (record_on_both p) cb e)
        with ((cb ← record_on_both p cb;
               repeat_call k (record_on_both p) cb) e).
      by erewrite bind_Some; [|exact Hstep].
    + by replace (j + S k)%nat with (S j + k)%nat by lia.
Qed.

(** X20. The use the tests make of a window as failure threshold: the
    caller records each failure on the window, then on the breaker.  With an
    empty window of limit [m] at least 1 and all the readings of the [m]
    failures within one [windowSize], the breaker stays Closed through the
    first [m - 1] failures and the [m]-th opens it, stamped with the reading
    that follows the [Check]. *)
Theorem window_threshold_opens_at_limit p cb e sw :
  monotonic e →
  heap e !! p = Some sw → failureTimes sw = [] →
  Int64.min_int < windowSize sw ≤ Int64.max_int →
  1 ≤ maxFailures sw →
  state cb = StateClosed →
  failureThreshold cb = SlidingWindowThreshold_ptr p →
  failureSwitch cb = ChooseSwitch (failureThreshold cb) →
  clock e (2 * Z.to_nat (maxFailures sw) + reads e - 1) - windowSize sw
    < clock e (reads e) →
  (∀ k, Z.of_nat k < maxFailures sw →
     ∃ cb_k e_k, repeat_call k (record_on_both p) cb e = Some (cb_k, e_k) ∧
                 state cb_k = StateClosed ∧
                 reads e_k = (2 * k + reads e)%nat) ∧
  ∃ cb_m e',
    repeat_call (Z.to_nat (maxFailures sw)) (record_on_both p) cb e
    = Some (cb_m, e') ∧
    state cb_m = StateOpened ∧ failures cb_m = 0 ∧ successes cb_m = 0 ∧
    lastStateChange cb_m
    = clock e (2 * Z.to_nat (maxFailures sw) + reads e).
Proof.
  intros Hmono Hp Hfts Hw Hm Hst Hth Hsw Hwin.
  set (m := maxFailures sw) in *. set (w := windowSize sw) in *.
  assert (both_inv p e w m 0 cb e) as Hinv.
  { do 5 (split; [done|]). exists sw. rewrite Hfts. by repeat split. }
  split.
  - intros k Hk.
    destruct (record_on_both_below p e w m k 0 cb e Hmono Hw)
      as (cb_k & e_k & Hrun & _ & Hreads & Hst_k & _); [|done|done|].
    { pose proof (Hmono (2 * (0 + k) + reads e - 1)%nat
                    (2 * Z.to_nat m + reads e - 1)%nat ltac:(lia)). lia. }
    by exists cb_k, e_k.
  - replace (Z.to_nat m) with (S (Z.to_nat (m - 1))) by lia.
    rewrite repeat_call_snoc.
    destruct (record_on_both_below p e w m (Z.to_nat (m - 1)) 0 cb e Hmono Hw)
      as (cb_k & e_k & Hrun & Hinv_k); [| |done|].
    { pose proof (Hmono (2 * (0 + Z.to_nat (m - 1)) + reads e - 1)%nat
                    (2 * Z.to_nat m + reads e - 1)%nat ltac:(lia)).
      lia. }
    { lia. }
    destruct (record_on_both_step p e w m (0 + Z.to_nat (m - 1)) cb_k e_k
                Hmono Hw)
      as (cb' & e' & Hstep & Hnext); [|exact Hinv_k|].
    { pose proof (Hmono (1 + 2 * (0 + Z.to_nat (m - 1)) + reads e)%nat
                    (2 * Z.to_nat m + reads e - 1)%nat ltac:(lia)).
      lia. }
    rewrite bool_decide_eq_true_2 in Hnext by lia.
    erewrite bind_Some; [|exact Hrun].
    exists cb', e'. split; [exact Hstep|]. subst cb'. simpl.
    do 3 (split; [done|]). f_equal. lia.
Qed.

(** ** The further properties at concrete inputs *)

Lemma window_entries_chronological_witness :
  ∃ p log e' sw,
    (p ← NewSlidingWindowThreshold (200 * ms) 2 "demo";
     log ← run_window p
             [Window_RecordFailure; Window_RecordFailure; Window_Check any_nil];
     mret (p, log)) demo_env = Some ((p, log), e') ∧
    heap e' !! p = Some sw ∧
    StronglySorted Z.le (failureTimes sw).
Proof.
  destruct (window_entries_chronological (200 * ms) 2 "demo"
              [Window_RecordFailure; Window_RecordFailure; Window_Check any_nil]
              demo_env demo_env_monotonic)
    as (p & log & e' & sw & Hrun & Hp & Hsort & _).
  exists p, log, e', sw. repeat split; assumption.
Defined.

Lemma GetCurrentFailures_counts_unpruned_witness :
  ∃ log e',
    run_window 1 (replicate 3 Window_RecordFailure) demo_window_env
    = Some (log, e') ∧
    SlidingWindowThreshold_GetCurrentFailures 1 e' = Some (5, e').
Proof.
  destruct (GetCurrentFailures_counts_unpruned 1 3 demo_window_env demo_window)
    as (log & e' & sw' & Hrun & _ & _ & Hcount).
  - reflexivity.
  - exists log, e'. split; assumption.
Defined.

Lemma Check_without_new_failures_decays_witness :
  ∃ b1 e1 b2 e2,
    SlidingWindowThreshold_Check 1 any_nil demo_window_env = Some (b1, e1) ∧
    SlidingWindowThreshold_Check 1 any_nil (after_reads 3 e1) = Some (b2, e2) ∧
    (b2 = true → b1 = true).
Proof.
  destruct (Check_without_new_failures_decays 1 any_nil any_nil 3
              demo_window_env demo_window)
    as (b1 & e1 & sw1 & b2 & e2 & sw2 & H1 & _ & H2 & _ & Hb & _).
  - exact demo_env_monotonic.
  - reflexivity.
  - exists b1, e1, b2, e2. repeat split; assumption.
Defined.

Lemma Check_nonpositive_window_witness :
  ∃ e' sw',
    SlidingWindowThreshold_Check 1 any_nil
      (env_with_window {| windowSize := 0; maxFailures := 1; name := "demo";
                          failureTimes := [0; 50 * ms] |} 2)
    = Some (false, e') ∧
    heap e' !! 1%positive = Some sw' ∧ failureTimes sw' = [].
Proof.
  destruct (Check_nonpositive_window 1 any_nil
              (env_with_window
                 {| windowSize := 0; maxFailures := 1; name := "demo";
                    failureTimes := [0; 50 * ms] |} 2)
              {| windowSize := 0; maxFailures := 1; name := "demo";
                 failureTimes := [0; 50 * ms] |})
    as (e' & sw' & Hrun & Hp & Hfts).
  - reflexivity.
  - split; vm_compute; [reflexivity|discriminate].
  - repeat constructor; vm_compute; discriminate.
  - exists e', sw'. repeat split; assumption.
Defined.

Lemma Allow_negative_timeout_witness :
  Allow (moved_to StateOpened 0 (set_openedTimeout (-1) demo_breaker)) demo_env
  = Some ((true,
           moved_to StateHalfOpen (50 * ms)
             (set_openedTimeout (-1) demo_breaker)),
          after_reads 2 demo_env).
Proof.
  apply (Allow_negative_timeout
           (moved_to StateOpened 0 (set_openedTimeout (-1) demo_breaker))
           demo_env).
  - reflexivity.
  - reflexivity.
  - vm_compute. discriminate.
Defined.

Lemma Allow_max_timeout_witness :
  repeat_Allow 3
    (moved_to StateOpened 0 (set_openedTimeout Int64.max_int demo_breaker))
    demo_env
  = Some (([false; false; false],
           moved_to StateOpened 0
             (set_openedTimeout Int64.max_int demo_breaker)),
          after_reads 3 demo_env).
Proof.
  apply (Allow_max_timeout
           (moved_to StateOpened 0
              (set_openedTimeout Int64.max_int demo_breaker)) 3 demo_env);
    reflexivity.
Defined.

Lemma state_moves_along_arrows_witness :
  arrow Call_RecordFailure StateClosed StateOpened.
Proof.
  destruct (state_moves_along_arrows Call_RecordFailure
              (set_failures 1 demo_breaker) demo_env
              (moved_to StateOpened 0 demo_breaker) (after_reads 1 demo_env))
    as [[Hsame _]|[Harrow _]].
  - reflexivity.
  - discriminate Hsame.
  - exact Harrow.
Defined.

Lemma only_UpdateValues_reconfigures_witness :
  same_config (set_failures 1 demo_breaker)
    (moved_to StateOpened 0 demo_breaker).
Proof.
  apply (only_UpdateValues_reconfigures Call_RecordFailure
           (set_failures 1 demo_breaker) demo_env
           (moved_to StateOpened 0 demo_breaker) (after_reads 1 demo_env)).
  - reflexivity.
  - intros nf ns nt. discriminate.
Defined.

Lemma breaker_methods_only_prune_witness :
  ∃ cb' e',
    run_call Call_RecordFailure demo_window_breaker demo_window_env
    = Some (cb', e') ∧
    ∀ q, heap demo_window_env !! q = None → heap e' !! q = None.
Proof.
  exists (moved_to StateOpened (150 * ms) demo_window_breaker),
    (after_reads 2 demo_window_env).
  split; [reflexivity|].
  apply (breaker_methods_only_prune (SlidingWindowThreshold_ptr 1)
           (Int64Threshold_ptr (NewInt64Threshold 1)) (100 * ms) []
           (env_with_window demo_window 1)
           (set_lastStateChange (50 * ms) demo_window_breaker)
           demo_window_env Call_RecordFailure
           (moved_to StateOpened (150 * ms) demo_window_breaker)
           (after_reads 2 demo_window_env)).
  - reflexivity.
  - exact I.
  - reflexivity.
Defined.

Lemma counters_bounded_by_calls_witness :
  0 ≤ failures (set_failures 0 (set_successes 1 demo_breaker)) ≤ 1 ∧
  0 ≤ successes (set_failures 0 (set_successes 1 demo_breaker)) ≤ 1.
Proof.
  apply (counters_bounded_by_calls
           (Int64Threshold_ptr (NewInt64Threshold 2))
           (Int64Threshold_ptr (NewInt64Threshold 1)) (100 * ms)
           [Call_RecordFailure; Call_RecordSuccess] demo_env
           (set_failures 0 (set_successes 1 demo_breaker))
           (after_reads 1 demo_env)).
  - reflexivity.
  - vm_compute. discriminate.
Defined.

Lemma RecordSuccess_resets_failure_streak_witness :
  ∃ cb1 cb',
    RecordSuccess (set_failures 1 demo_breaker) demo_env
    = Some (cb1, demo_env) ∧
    failures cb1 = 0 ∧
    repeat_call 2 RecordFailure cb1 demo_env
    = Some (cb', after_reads 1 demo_env) ∧
    state cb' = StateOpened.
Proof.
  destruct (RecordSuccess_resets_failure_streak 2
              (set_failures 1 demo_breaker) demo_env)
    as (cb1 & Hrun & _ & Hf & _ & cb' & Hopen & Hst).
  - reflexivity.
  - split; reflexivity.
  - split; vm_compute; discriminate.
  - vm_compute. discriminate.
  - exists cb1, cb'. repeat split; assumption.
Defined.

Lemma failure_cooldown_recovery_cycle_witness :
  (cb ← repeat_call 2 RecordFailure (set_openedTimeout (10 * ms) demo_breaker);
   r ← Allow cb;
   cb ← repeat_call 1 RecordSuccess r.2;
   mret (r.1, cb)) demo_env
  = Some ((true,
           moved_to StateClosed (150 * ms)
             (set_openedTimeout (10 * ms) demo_breaker)),
          after_reads 4 demo_env).
Proof.
  apply (failure_cooldown_recovery_cycle 2 1
           (set_openedTimeout (10 * ms) demo_breaker) demo_env).
  - reflexivity.
  - reflexivity.
  - split; reflexivity.
  - split; reflexivity.
  - split; vm_compute; discriminate.
  - vm_compute. discriminate.
  - split; vm_compute; discriminate.
  - vm_compute. discriminate.
  - vm_compute. reflexivity.
Defined.

Lemma RecordFailure_with_window_threshold_witness :
  RecordFailure demo_window_breaker demo_window_env
  = Some (moved_to StateOpened (150 * ms) demo_window_breaker,
          after_reads 2 demo_window_env).
Proof.
  exact (RecordFailure_with_window_threshold demo_window_breaker
           demo_window_env 1 demo_window eq_refl eq_refl eq_refl eq_refl).
Defined.

Lemma RecordFailure_never_fills_window_witness :
  ∃ cb_k,
    repeat_call 5 RecordFailure demo_window_breaker
      (env_with_window (set_failureTimes [] demo_window) 0)
    = Some (cb_k,
            after_reads 5 (env_with_window (set_failureTimes [] demo_window) 0))
    ∧ state cb_k = StateClosed.
Proof.
  destruct (RecordFailure_never_fills_window demo_window_breaker 1
              (set_failureTimes [] demo_window) 5
              (env_with_window (set_failureTimes [] demo_window) 0))
    as (cb_k & Hrun & Hst & _).
  - reflexivity.
  - reflexivity.
  - reflexivity.
  - reflexivity.
  - reflexivity.
  - reflexivity.
  - exists cb_k. split; assumption.
Defined.

Lemma NaN_threshold_never_trips_witness :
  ∃ cb_k,
    repeat_call 4 RecordFailure
      (with_failureThreshold
         (Float64Threshold_ptr (NewFloat64Threshold nan)) demo_breaker)
      demo_env = Some (cb_k, demo_env) ∧
    state cb_k = StateClosed.
Proof.
  destruct (NaN_threshold_never_trips
              (with_failureThreshold
                 (Float64Threshold_ptr (NewFloat64Threshold nan)) demo_breaker)
              4 demo_env)
    as (_ & cb_k & Hrun & Hst & _).
  - reflexivity.
  - reflexivity.
  - reflexivity.
  - exists cb_k. split; assumption.
Defined.

Lemma first_failure_with_ratio_threshold_witness :
  RecordFailure
    (with_failureThreshold
       (Float64Threshold_ptr (NewFloat64Threshold 0.5)) demo_breaker)
    demo_env
  = Some (moved_to StateOpened 0
            (with_failureThreshold
               (Float64Threshold_ptr (NewFloat64Threshold 0.5)) demo_breaker),
          after_reads 1 demo_env).
Proof.
  exact (first_failure_with_ratio_threshold (NewFloat64Threshold 0.5)
           (with_failureThreshold
              (Float64Threshold_ptr (NewFloat64Threshold 0.5)) demo_breaker)
           demo_env eq_refl eq_refl eq_refl eq_refl).
Defined.

Lemma window_threshold_opens_at_limit_witness :
  ∃ cb_m e',
    repeat_call 2 (record_on_both 1) demo_window_breaker
      (env_with_window (set_failureTimes [] demo_window) 0)
    = Some (cb_m, e') ∧
    state cb_m = StateOpened ∧ lastStateChange cb_m = 200 * ms.
Proof.
  destruct (window_threshold_opens_at_limit 1 demo_window_breaker
              (env_with_window (set_failureTimes [] demo_window) 0)
              (set_failureTimes [] demo_window))
    as (_ & cb_m & e' & Hrun & Hst & _ & _ & Hl).
  - exact demo_env_monotonic.
  - reflexivity.
  - reflexivity.
  - split; vm_compute; [reflexivity|discriminate].
  - vm_compute. discriminate.
  - reflexivity.
  - reflexivity.
  - reflexivity.
  - vm_compute. reflexivity.
  - exists cb_m, e'. repeat split; assumption.
Defined.
